(** * The council engine of llm-senate-council-upgrade (Go backend)

    A shallow embedding of [backend-go/council.go] and
    [backend-go/openrouter.go]: the ranking text parser, the aggregator,
    the parallel query executor and the three-stage orchestrator, with the
    properties the specification states about them; then the title
    generator of [council.go], two functions of the bills scraper and the
    bills cache, with further properties of all of them. *)

From Stdlib Require Import ZArith QArith Ascii String Permutation Sorted Lia.
From stdpp Require Import gmap strings list fin_maps.

Local Open Scope string_scope.

(** ** Go strings

    A Go [string] is a sequence of bytes; it is embedded as [string], one
    [ascii] per byte.  Every pattern of this program is made of ASCII bytes
    only, and no ASCII byte occurs inside a multi-byte UTF-8 sequence, so
    matching byte by byte agrees with Go's matching rune by rune. *)

Module Strings.

(** [strings.HasPrefix(s, prefix)] *)
Fixpoint HasPrefix (s prefix : string) {struct prefix} : bool :=
  match prefix, s with
  | EmptyString, _ => true
  | String p prefix', String c s' => Ascii.eqb c p && HasPrefix s' prefix'
  | String _ _, EmptyString => false
  end.

(** [s[n:]] *)
Fixpoint drop (n : nat) (s : string) : string :=
  match n, s with
  | O, _ => s
  | S n', String _ s' => drop n' s'
  | S _, EmptyString => EmptyString
  end.

(** [s[:n]] *)
Fixpoint take (n : nat) (s : string) : string :=
  match n, s with
  | S n', String c s' => String c (take n' s')
  | _, _ => EmptyString
  end.

(** [strings.Index(s, substr)]: the byte offset of the first occurrence,
    [None] for Go's [-1]. *)
Fixpoint Index (s substr : string) : option nat :=
  if HasPrefix s substr then Some O
  else match s with
       | EmptyString => None
       | String _ s' => S <$> Index s' substr
       end.

(** [strings.Contains(s, substr)] is [Index(s, substr) >= 0]. *)
Definition Contains (s substr : string) : bool :=
  bool_decide (is_Some (Index s substr)).

(** [strings.Split(s, sep)] for a non-empty separator: cut at every
    occurrence of [sep], found from left to right by [Index] on what is
    left.  Each cut removes at least one byte, so [String.length s]
    rounds are enough. *)
Fixpoint Split_rounds (rounds : nat) (s sep : string) : list string :=
  match rounds with
  | O => [s]
  | S rounds' =>
      match Index s sep with
      | None => [s]
      | Some m => take m s :: Split_rounds rounds' (drop (m + String.length sep) s) sep
      end
  end.

Definition Split (s sep : string) : list string :=
  Split_rounds (String.length s) s sep.

End Strings.

(** ** Regular expressions

    The fragment of Go's [regexp] syntax the program uses, with the
    leftmost-first semantics of the package: a match begins as early as
    possible and is, among the matches beginning there, the one a
    backtracking search finds first (repetition is greedy). *)

Module Regexp.

Inductive regexp : Type :=
| Eps
| Char (c : ascii)
| Class (p : ascii -> bool)
| Cat (r1 r2 : regexp)
| Star (r : regexp).

Definition Plus (r : regexp) : regexp := Cat r (Star r).

Fixpoint Lit (s : string) : regexp :=
  match s with
  | EmptyString => Eps
  | String c s' => Cat (Char c) (Lit s')
  end.

(** [\d] is [[0-9]], [\s] is [[\t\n\f\r ]], and [[A-Z]]. *)
Definition digit (c : ascii) : bool :=
  let n := nat_of_ascii c in (48 <=? n)%nat && (n <=? 57)%nat.
Definition space (c : ascii) : bool :=
  let n := nat_of_ascii c in
  (n =? 9)%nat || (n =? 10)%nat || (n =? 12)%nat || (n =? 13)%nat || (n =? 32)%nat.
Definition upper (c : ascii) : bool :=
  let n := nat_of_ascii c in (65 <=? n)%nat && (n <=? 90)%nat.

(** Greedy iteration of [step]: try one more round (which must consume
    input) before trying the continuation. *)
Fixpoint iterate (step : string -> (string -> option string) -> option string)
    (rounds : nat) (s : string) (k : string -> option string) : option string :=
  match rounds with
  | O => k s
  | S rounds' =>
      match step s (fun s' =>
               if (String.length s' <? String.length s)%nat
               then iterate step rounds' s' k else None) with
      | Some rest => Some rest
      | None => k s
      end
  end.

(** The backtracking search: [backtrack r s k] matches [r] at the start
    of [s] and hands what is left to [k]; the first success wins. *)
Fixpoint backtrack (r : regexp) (s : string) (k : string -> option string)
    : option string :=
  match r with
  | Eps => k s
  | Char c =>
      match s with
      | String a s' => if Ascii.eqb a c then k s' else None
      | EmptyString => None
      end
  | Class p =>
      match s with
      | String a s' => if p a then k s' else None
      | EmptyString => None
      end
  | Cat r1 r2 => backtrack r1 s (fun s' => backtrack r2 s' k)
  | Star r1 => iterate (backtrack r1) (String.length s) s k
  end.

(** The length of the match of [r] that starts at the first byte of [s]. *)
Definition match_at (r : regexp) (s : string) : option nat :=
  (fun rest => String.length s - String.length rest)%nat <$> backtrack r s Some.

(** Successive non-overlapping matches, from left to right.  [at s] is
    the length of the match starting at [s]; [skip] bytes of the last
    match are still to be passed over.  (No pattern of the program
    matches the empty string; an empty match is not reported.) *)
Fixpoint scan (at_ : string -> option nat) (skip : nat) (s : string) : list string :=
  match skip with
  | S skip' =>
      match s with
      | String _ s' => scan at_ skip' s'
      | EmptyString => []
      end
  | O =>
      match at_ s with
      | Some (S n) =>
          Strings.take (S n) s ::
            match s with
            | String _ s' => scan at_ n s'
            | EmptyString => []
            end
      | _ =>
          match s with
          | String _ s' => scan at_ O s'
          | EmptyString => []
          end
      end
  end.

(** [re.FindAllString(s, -1)] *)
Definition FindAllString (r : regexp) (s : string) : list string :=
  scan (match_at r) O s.

(** [re.FindString(s)]: the leftmost match, or the empty string. *)
Definition FindString (r : regexp) (s : string) : string :=
  match FindAllString r s with
  | m :: _ => m
  | [] => ""
  end.

End Regexp.

(** ** The ranking text parser *)

Import Strings Regexp.

(** [regexp.MustCompile(`\d+\.\s*Response [A-Z]`)] *)
Definition numberedPattern : regexp :=
  Cat (Plus (Class digit))
    (Cat (Char ".") (Cat (Star (Class space)) (Cat (Lit "Response ") (Class upper)))).

(** [regexp.MustCompile(`Response [A-Z]`)] *)
Definition responsePattern : regexp :=
  Cat (Lit "Response ") (Class upper).

Definition ParseRankingFromText (rankingText : string) : list string :=
  let fallback := FindAllString responsePattern rankingText in
  if Contains rankingText "FINAL RANKING:" then
    let parts := Split rankingText "FINAL RANKING:" in
    if (2 <=? length parts)%nat then
      let rankingSection := nth 1 parts "" in
      let numberedMatches := FindAllString numberedPattern rankingSection in
      if (0 <? length numberedMatches)%nat then
        flat_map (fun m =>
                    let resp := FindString responsePattern m in
                    if String.eqb resp "" then [] else [resp])
                 numberedMatches
      else
        let matches := FindAllString responsePattern rankingSection in
        if (0 <? length matches)%nat then matches else fallback
    else fallback
  else fallback.

(** ** Data model ([models.go]) *)

Record Stage1Response : Type := mkStage1Response {
  Stage1_Model : string;
  Stage1_Response : string
}.

Record Stage2Ranking : Type := mkStage2Ranking {
  Stage2_Model : string;
  Stage2_Ranking : string;
  Stage2_ParsedRanking : list string
}.

Record Stage3Response : Type := mkStage3Response {
  Stage3_Model : string;
  Stage3_Response : string
}.

Record OpenRouterMessage : Type := mkOpenRouterMessage {
  Role : string;
  Content : string
}.

(** [ReasoningDetails] is an [interface{}] decoded from JSON; the engine
    never looks inside it, so it is kept as the text of the JSON value,
    [None] for [nil]. *)
Record OpenRouterResponse : Type := mkOpenRouterResponse {
  Response_Content : string;
  ReasoningDetails : option string
}.

(** Go errors as built by [fmt.Errorf]: a message, possibly wrapping
    another error with [%w]. *)
Inductive error : Type :=
| errorString (msg : string)
| wrapError (msg : string) (err : error).

(** ** What the Go runtime and library leave open

    Four things the code relies on are not fixed by the source: the
    [float64] arithmetic of [AverageRank], the order in which [range]
    walks a map, the order in which goroutines get the mutex, and the
    order [sort.Slice] gives to elements that compare equal.  They are the
    fields of [GoRuntime], with the guarantees Go documents for them;
    every property below holds for all of them. *)

Class GoRuntime : Type := {
  float64 : Type;
  (** [float64(n)] for an [int] [n] *)
  float64_of_int : Z -> float64;
  (** [x / y] *)
  float64_div : float64 -> float64 -> float64;
  (** [x < y] *)
  float64_lt : float64 -> float64 -> bool;
  (** [math.IsNaN(x)] *)
  float64_IsNaN : float64 -> bool;
  (** The order in which the [seed]-th [range] statement of a run walks a map. *)
  range : forall {V : Type}, nat -> gmap string V -> list (string * V);
  (** The order in which the [n] goroutines of the [seed]-th [errgroup]
      of a run enter their critical section. *)
  schedule : nat -> nat -> list nat;
  (** [sort.Slice(x, less)] *)
  sort_Slice : forall {A : Type}, (A -> A -> bool) -> list A -> list A;

  float64_div_not_NaN : forall a b : Z,
    b <> 0%Z -> float64_IsNaN (float64_div (float64_of_int a) (float64_of_int b)) = false;
  float64_lt_irrefl : forall x, float64_lt x x = false;
  float64_lt_trans : forall x y z,
    float64_lt x y = true -> float64_lt y z = true -> float64_lt x z = true;
  float64_lt_cotrans : forall x y z,
    float64_IsNaN x = false -> float64_IsNaN y = false -> float64_IsNaN z = false ->
    float64_lt x z = true -> float64_lt x y = true \/ float64_lt y z = true;
  range_Permutation : forall (V : Type) (seed : nat) (m : gmap string V),
    range seed m ≡ₚ map_to_list m;
  schedule_Permutation : forall seed n : nat, schedule seed n ≡ₚ seq 0 n;
  sort_Slice_Permutation : forall (A : Type) (less : A -> A -> bool) (x : list A),
    sort_Slice less x ≡ₚ x;
  (** When [less] is a strict weak ordering of the elements, no element
      of the result is less than its predecessor. *)
  sort_Slice_Sorted : forall (A : Type) (less : A -> A -> bool) (x : list A),
    (forall a, a ∈ x -> less a a = false) ->
    (forall a b c, a ∈ x -> b ∈ x -> c ∈ x ->
       less a b = true -> less b c = true -> less a c = true) ->
    (forall a b c, a ∈ x -> b ∈ x -> c ∈ x ->
       less a c = true -> less a b = true \/ less b c = true) ->
    Sorted (fun a b => less b a = false) (sort_Slice less x)
}.

Record AggregateRanking `{GoRuntime} : Type := mkAggregateRanking {
  Aggregate_Model : string;
  AverageRank : float64;
  RankingsCount : Z
}.

Record Metadata `{GoRuntime} : Type := mkMetadata {
  LabelToModel : gmap string string;
  AggregateRankings : list AggregateRanking
}.

(** ** The aggregator *)

Section Aggregator.
Context `{GoRuntime}.

(** [for i, x := range xs] over a slice: the elements with their index. *)
Definition indexed {A : Type} (xs : list A) : list (nat * A) :=
  imap (fun i x => (i, x)) xs.

(** The body of the inner loop of [CalculateAggregateRankings].  A
    position is a slice index plus one, a Go [int] of 64 bits.  Positions,
    their sums and their counts are kept in [Z]: the wrap-around of [int]
    is left out, a sum of positions would have to reach 2^63 to meet it. *)
Definition record_position (labelToModel : gmap string string)
    (modelPositions : gmap string (list Z)) (entry : nat * string)
    : gmap string (list Z) :=
  let '(position, label) := entry in
  match labelToModel !! label with
  | Some modelName =>
      <[modelName := (default [] (modelPositions !! modelName)
                      ++ [(Z.of_nat position + 1)%Z])%list]> modelPositions
  | None => modelPositions
  end.

(** The first loop: the positions each model was given. *)
Definition collect_positions (stage2Results : list Stage2Ranking)
    (labelToModel : gmap string string) : gmap string (list Z) :=
  foldl (fun modelPositions ranking =>
           foldl (record_position labelToModel) modelPositions
                 (indexed (Stage2_ParsedRanking ranking)))
        ∅ stage2Results.

(** [sum := 0; for _, pos := range positions { sum += pos }] *)
Definition sum_positions (positions : list Z) : Z :=
  foldl Z.add 0%Z positions.

(** The second loop, over the map in [range] order. *)
Definition average_positions (entries : list (string * list Z)) : list AggregateRanking :=
  flat_map (fun '(model, positions) =>
              if (0 <? length positions)%nat then
                [ {| Aggregate_Model := model;
                     AverageRank :=
                       float64_div (float64_of_int (sum_positions positions))
                                   (float64_of_int (Z.of_nat (length positions)));
                     RankingsCount := Z.of_nat (length positions) |} ]
              else [])
           entries.

(** The [less] function given to [sort.Slice]. *)
Definition less_AverageRank (a b : AggregateRanking) : bool :=
  float64_lt (AverageRank a) (AverageRank b).

Definition CalculateAggregateRankings (stage2Results : list Stage2Ranking)
    (labelToModel : gmap string string) : list AggregateRanking :=
  let modelPositions := collect_positions stage2Results labelToModel in
  let aggregate := average_positions (range 3 modelPositions) in
  sort_Slice less_AverageRank aggregate.

End Aggregator.

(** ** The model invoker and the parallel query executor ([openrouter.go]) *)

(** [time.Second], in nanoseconds, and the timeout of [config.go]. *)
Definition Second : Z := 1000000000.
Definition ModelQueryTimeout : Z := 120 * Second.

(** One run of the program in its environment: the configuration
    variables of [config.go] and the outcome of every call of
    [QueryModel].  [QueryModel] does one HTTP round trip and returns either
    a response and a [nil] error or [nil] and an error; the call made by
    goroutine [i] of the [seed]-th errgroup of the run is call [(seed, i)],
    the chairman's call is call [(3, 0)].  Cancellation of [ctx] is one of
    the ways a call ends in an error. *)
Record World : Type := mkWorld {
  CouncilModels : list string;
  ChairmanModel : string;
  QueryModel : nat -> nat -> string -> list OpenRouterMessage -> Z ->
               OpenRouterResponse + error
}.

(** [golang.org/x/sync/errgroup]: [g.Go(f)] runs [f] in a goroutine,
    [g.Wait()] waits for all of them and returns the first non-nil error
    one of them returned.  A goroutine of this program works on the shared
    state only inside one critical section, so a run of the group is the
    sequence of these sections in the order the mutex was taken. *)
Definition errgroup_Wait {St : Type} (goroutines : list (St -> St * option error))
    (order : list nat) (init : St) : St * option error :=
  foldl (fun '(st, first) i =>
           match goroutines !! i with
           | Some f =>
               let '(st', err) := f st in
               (st', match first with Some e => Some e | None => err end)
           | None => (st, first)
           end)
        (init, None) order.

Section Executor.
Context `{GoRuntime}.

(** The function given to [g.Go] for the [i]-th model. *)
Definition query_goroutine (w : World) (seed i : nat) (model : string)
    (messages : list OpenRouterMessage)
    (results : gmap string (option OpenRouterResponse))
    : gmap string (option OpenRouterResponse) * option error :=
  match QueryModel w seed i model messages (120 * Second) with
  | inr err => (<[model := None]> results, None)
  | inl response => (<[model := Some response]> results, None)
  end.

Definition QueryModelsParallel (w : World) (seed : nat) (models : list string)
    (messages : list OpenRouterMessage)
    : gmap string (option OpenRouterResponse) * option error :=
  let goroutines := imap (fun i model => query_goroutine w seed i model messages) models in
  let '(results, err) := errgroup_Wait goroutines (schedule seed (length models)) ∅ in
  match err with
  | Some e => (∅, Some e)
  | None => (results, None)
  end.

End Executor.

(** ** Labels

    [string(rune('A' + i))]: the conversion to [rune] keeps the low 32
    bits as a signed number, and the conversion of a rune to a string is
    its UTF-8 encoding, or that of U+FFFD when the rune is not a valid code
    point (negative, above U+10FFFF, or a surrogate). *)

Definition rune (x : Z) : Z :=
  ((x + 2147483648) mod 4294967296 - 2147483648)%Z.

Definition byte (b : Z) : ascii := ascii_of_nat (Z.to_nat b).

Definition string_of_bytes (bs : list Z) : string :=
  foldr (fun b s => String (byte b) s) EmptyString bs.

Definition utf8 (r : Z) : list Z :=
  if (r <? 128)%Z then [r]
  else if (r <? 2048)%Z then
    [Z.lor 192 (Z.shiftr r 6); Z.lor 128 (Z.land r 63)]
  else if (r <? 65536)%Z then
    [Z.lor 224 (Z.shiftr r 12); Z.lor 128 (Z.land (Z.shiftr r 6) 63);
     Z.lor 128 (Z.land r 63)]
  else
    [Z.lor 240 (Z.shiftr r 18); Z.lor 128 (Z.land (Z.shiftr r 12) 63);
     Z.lor 128 (Z.land (Z.shiftr r 6) 63); Z.lor 128 (Z.land r 63)].

Definition string_of_rune (r : Z) : string :=
  if ((r <? 0) || (1114111 <? r) || ((55296 <=? r) && (r <=? 57343)))%Z
  then string_of_bytes (utf8 65533)
  else string_of_bytes (utf8 r).

(** [label := string(rune('A' + i))] *)
Definition label_of (i : nat) : string :=
  string_of_rune (rune (65 + Z.of_nat i)).

(** [labelKey := fmt.Sprintf("Response %s", label)] *)
Definition labelKey_of (i : nat) : string :=
  "Response " +:+ label_of i.

(** ** The three stages ([council.go]) *)

Definition nl : string := String (ascii_of_nat 10) "".
Definition dquote : string := String (ascii_of_nat 34) "".

(** The loop of [Stage2CollectRankings] that builds the label map ... *)
Definition assign_labels (stage1Results : list Stage1Response) : gmap string string :=
  foldl (fun labelToModel '(i, result) =>
           <[labelKey_of i := Stage1_Model result]> labelToModel)
        ∅ (indexed stage1Results).

(** ... and the text of the anonymized responses. *)
Definition responsesText (stage1Results : list Stage1Response) : string :=
  foldl (fun text '(i, result) =>
           text +:+ ("Response " +:+ label_of i +:+ ":" +:+ nl
                     +:+ Stage1_Response result +:+ nl +:+ nl))
        "" (indexed stage1Results).

Definition rankingPrompt (userQuery responses : string) : string :=
  "You are evaluating different responses to the following question:" +:+ nl +:+
  nl +:+
  "Question: " +:+ userQuery +:+ nl +:+
  nl +:+
  "Here are the responses from different models (anonymized):" +:+ nl +:+
  nl +:+
  responses +:+ nl +:+
  nl +:+
  "Your task:" +:+ nl +:+
  "1. First, evaluate each response individually. For each response, explain what it does well and what it does poorly." +:+ nl +:+
  "2. Then, at the very end of your response, provide a final ranking." +:+ nl +:+
  nl +:+
  "IMPORTANT: Your final ranking MUST be formatted EXACTLY as follows:" +:+ nl +:+
  "- Start with the line " +:+ dquote +:+ "FINAL RANKING:" +:+ dquote +:+ " (all caps, with colon)" +:+ nl +:+
  "- Then list the responses from best to worst as a numbered list" +:+ nl +:+
  "- Each line should be: number, period, space, then ONLY the response label (e.g., " +:+ dquote +:+ "1. Response A" +:+ dquote +:+ ")" +:+ nl +:+
  "- Do not add any other text or explanations in the ranking section" +:+ nl +:+
  nl +:+
  "Example of the correct format for your ENTIRE response:" +:+ nl +:+
  nl +:+
  "Response A provides good detail on X but misses Y..." +:+ nl +:+
  "Response B is accurate but lacks depth on Z..." +:+ nl +:+
  "Response C offers the most comprehensive answer..." +:+ nl +:+
  nl +:+
  "FINAL RANKING:" +:+ nl +:+
  "1. Response C" +:+ nl +:+
  "2. Response A" +:+ nl +:+
  "3. Response B" +:+ nl +:+
  nl +:+
  "Now provide your evaluation and ranking:".

(** The two loops of [Stage3SynthesizeFinal]. *)
Definition stage1Text (stage1Results : list Stage1Response) : string :=
  foldl (fun text result =>
           text +:+ ("Model: " +:+ Stage1_Model result +:+ nl
                     +:+ "Response: " +:+ Stage1_Response result +:+ nl +:+ nl))
        "" stage1Results.

Definition stage2Text (stage2Results : list Stage2Ranking) : string :=
  foldl (fun text result =>
           text +:+ ("Model: " +:+ Stage2_Model result +:+ nl
                     +:+ "Ranking: " +:+ Stage2_Ranking result +:+ nl +:+ nl))
        "" stage2Results.

Definition chairmanPrompt (userQuery stage1 stage2 : string) : string :=
  "You are the Chairman of an LLM Council. Multiple AI models have provided responses to a user's question, and then ranked each other's responses." +:+ nl +:+
  nl +:+
  "Original Question: " +:+ userQuery +:+ nl +:+
  nl +:+
  "STAGE 1 - Individual Responses:" +:+ nl +:+
  stage1 +:+ nl +:+
  nl +:+
  "STAGE 2 - Peer Rankings:" +:+ nl +:+
  stage2 +:+ nl +:+
  nl +:+
  "Your task as Chairman is to synthesize all of this information into a single, comprehensive, accurate answer to the user's original question. Consider:" +:+ nl +:+
  "- The individual responses and their insights" +:+ nl +:+
  "- The peer rankings and what they reveal about response quality" +:+ nl +:+
  "- Any patterns of agreement or disagreement" +:+ nl +:+
  nl +:+
  "Provide a clear, well-reasoned final answer that represents the council's collective wisdom:".

Section Council.
Context `{GoRuntime}.

Definition Stage1CollectResponses (w : World) (userQuery : string)
    : list Stage1Response * option error :=
  let messages := [ {| Role := "user"; Content := userQuery |} ] in
  let '(responses, err) := QueryModelsParallel w 1 (CouncilModels w) messages in
  match err with
  | Some e => ([], Some (wrapError "failed to query models: " e))
  | None =>
      (flat_map (fun '(model, response) =>
                   match response with
                   | Some r => [ {| Stage1_Model := model;
                                    Stage1_Response := Response_Content r |} ]
                   | None => []
                   end)
                (range 1 responses),
       None)
  end.

Definition Stage2CollectRankings (w : World) (userQuery : string)
    (stage1Results : list Stage1Response)
    : list Stage2Ranking * gmap string string * option error :=
  let labelToModel := assign_labels stage1Results in
  let prompt := rankingPrompt userQuery (responsesText stage1Results) in
  let messages := [ {| Role := "user"; Content := prompt |} ] in
  let '(responses, err) := QueryModelsParallel w 2 (CouncilModels w) messages in
  match err with
  | Some e => ([], ∅, Some (wrapError "failed to query models for rankings: " e))
  | None =>
      (flat_map (fun '(model, response) =>
                   match response with
                   | Some r =>
                       let fullText := Response_Content r in
                       let parsed := ParseRankingFromText fullText in
                       [ {| Stage2_Model := model;
                            Stage2_Ranking := fullText;
                            Stage2_ParsedRanking := parsed |} ]
                   | None => []
                   end)
                (range 2 responses),
       labelToModel, None)
  end.

(** The message sent to the chairman. *)
Definition chairman_messages (userQuery : string)
    (stage1Results : list Stage1Response) (stage2Results : list Stage2Ranking)
    : list OpenRouterMessage :=
  [ {| Role := "user";
       Content := chairmanPrompt userQuery (stage1Text stage1Results)
                                 (stage2Text stage2Results) |} ].

(** [Stage3SynthesizeFinal] returns either a result and a [nil] error or
    [nil] and an error: a sum. *)
Definition Stage3SynthesizeFinal (w : World) (userQuery : string)
    (stage1Results : list Stage1Response) (stage2Results : list Stage2Ranking)
    : Stage3Response + error :=
  let messages := chairman_messages userQuery stage1Results stage2Results in
  match QueryModel w 3 0 (ChairmanModel w) messages ModelQueryTimeout with
  | inr err => inr (wrapError "chairman model query failed: " err)
  | inl response =>
      inl {| Stage3_Model := ChairmanModel w;
             Stage3_Response := Response_Content response |}
  end.

(** The zero values [Stage3Response{}] and [Metadata{}]. *)
Definition Stage3Response_zero : Stage3Response :=
  {| Stage3_Model := ""; Stage3_Response := "" |}.
Definition Metadata_zero : Metadata :=
  {| LabelToModel := ∅; AggregateRankings := [] |}.

Definition RunFullCouncil (w : World) (userQuery : string)
    : list Stage1Response * list Stage2Ranking * Stage3Response * Metadata
      * option error :=
  let '(stage1Results, err) := Stage1CollectResponses w userQuery in
  match err with
  | Some e =>
      ([], [], Stage3Response_zero, Metadata_zero,
       Some (wrapError "stage 1 failed: " e))
  | None =>
  if (length stage1Results =? 0)%nat then
    ([], [], Stage3Response_zero, Metadata_zero,
     Some (errorString "all council models failed to respond"))
  else
  let '(stage2Results, labelToModel, err) :=
    Stage2CollectRankings w userQuery stage1Results in
  match err with
  | Some e =>
      ([], [], Stage3Response_zero, Metadata_zero,
       Some (wrapError "stage 2 failed: " e))
  | None =>
  let aggregateRankings := CalculateAggregateRankings stage2Results labelToModel in
  match Stage3SynthesizeFinal w userQuery stage1Results stage2Results with
  | inr e =>
      ([], [], Stage3Response_zero, Metadata_zero,
       Some (wrapError "stage 3 failed: " e))
  | inl stage3Result =>
      let metadata := {| LabelToModel := labelToModel;
                         AggregateRankings := aggregateRankings |} in
      (stage1Results, stage2Results, stage3Result, metadata, None)
  end
  end
  end.

End Council.

(** ** Title generation ([council.go]) *)

(** [TitleGenTimeout] of [config.go]. *)
Definition TitleGenTimeout : Z := 30 * Second.

(** [s[0]] and [s[len(s)-1]], [None] for an empty string. *)
Definition first_byte (s : string) : option ascii :=
  match s with
  | EmptyString => None
  | String c _ => Some c
  end.

Fixpoint last_byte (s : string) : option ascii :=
  match s with
  | EmptyString => None
  | String c EmptyString => Some c
  | String _ s' => last_byte s'
  end.

(** [strings.Trim(s, cutset)] for a cutset of ASCII bytes, the case of
    the program: the package then works byte by byte on a set of bytes,
    first from the right
    ([for len(s) > 0 { if !as.contains(s[len(s)-1]) { break }; s = s[:len(s)-1] }]),
    then from the left. *)
Definition asciiSet_contains (cutset : string) (c : ascii) : bool :=
  existsb (Ascii.eqb c) (list_ascii_of_string cutset).

Fixpoint trimRightASCII (rounds : nat) (s cutset : string) : string :=
  match rounds with
  | O => s
  | S rounds' =>
      match last_byte s with
      | Some c =>
          if asciiSet_contains cutset c
          then trimRightASCII rounds' (take (String.length s - 1) s) cutset
          else s
      | None => s
      end
  end.

Fixpoint trimLeftASCII (s cutset : string) : string :=
  match s with
  | String c s' => if asciiSet_contains cutset c then trimLeftASCII s' cutset else s
  | EmptyString => EmptyString
  end.

Definition Trim (s cutset : string) : string :=
  if String.eqb s "" || String.eqb cutset "" then s
  else trimLeftASCII (trimRightASCII (String.length s) s cutset) cutset.

Definition titlePrompt (userQuery : string) : string :=
  "Generate a very short title (3-5 words maximum) that summarizes the following question." +:+ nl +:+
  "The title should be concise and descriptive. Do not use quotes or punctuation in the title." +:+ nl +:+
  nl +:+
  "Question: " +:+ userQuery +:+ nl +:+
  nl +:+
  "Title:".

(** The cutset of the call: the double quote and the apostrophe. *)
Definition quotes : string := dquote +:+ "'".

Section TitleGenerator.

(** [strings.TrimSpace] removes leading and trailing Unicode white space;
    nothing proved below depends on which bytes it takes away, so it is
    left open. *)
Variable TrimSpace : string -> string.

(** The call of [QueryModel] for the title is call [(4, 0)] of the run. *)
Definition GenerateConversationTitle (w : World) (userQuery : string)
    : string * option error :=
  let messages := [ {| Role := "user"; Content := titlePrompt userQuery |} ] in
  match QueryModel w 4 0 "google/gemini-2.5-flash" messages TitleGenTimeout with
  | inr err => ("", Some (wrapError "title generation failed: " err))
  | inl response =>
      let title := TrimSpace (Response_Content response) in
      let title := Trim title quotes in
      let title :=
        if (50 <? String.length title)%nat then take 47 title +:+ "..." else title in
      (title, None)
  end.

End TitleGenerator.

(** ** The bills scraper ([scraper.go]) and its cache ([cache.go]) *)

Definition normalizeURL (href : string) : string :=
  if String.eqb href "" then ""
  else if HasPrefix href "http://" || HasPrefix href "https://" then href
  else if HasPrefix href "/" then "https://www.aph.gov.au" +:+ href
  else "https://www.aph.gov.au/" +:+ href.

(** [billCount] is an [int]; [/] and [%] of Go truncate toward zero. *)
Definition CalculateTotalPages (billCount : Z) : Z :=
  if (billCount =? 0)%Z then 1
  else
    let pages := Z.quot billCount 20 in
    if (0 <? Z.rem billCount 20)%Z then pages + 1 else pages.

(** A [time.Time]: the wall clock reading, in nanoseconds since the zero
    time, and the monotonic clock reading when the value has one (the
    values [time.Now()] returns have one, the zero value [time.Time{}] has
    none). *)
Record Time : Type := mkTime {
  wall : Z;
  monotonic : option Z
}.

Definition Time_zero : Time := {| wall := 0; monotonic := None |}.

(** A [time.Duration] is an [int64] of nanoseconds; a difference out of
    its range is replaced by the nearest bound. *)
Definition minDuration : Z := - 2 ^ 63.
Definition maxDuration : Z := 2 ^ 63 - 1.

Definition saturate (d : Z) : Z := Z.max minDuration (Z.min maxDuration d).

(** [t.Sub(u)]: the difference of the monotonic readings when both values
    have one, of the wall readings otherwise. *)
Definition Time_Sub (t u : Time) : Z :=
  match monotonic t, monotonic u with
  | Some m, Some n => saturate (m - n)
  | _, _ => saturate (wall t - wall u)
  end.

(** [time.Since(t)] when the clock reads [now]. *)
Definition Since (now t : Time) : Z := Time_Sub now t.

Record Bill : Type := mkBill {
  Bill_ID : string;
  Bill_Title : string;
  DateIntroduced : string;
  Chamber : string;
  Status : string;
  PortfolioSponsor : string;
  Summary : string;
  BillURL : string;
  ExplanatoryMemoURL : string;
  ScrapedAt : Time
}.

(** The fields the mutex of a [BillsCache] protects.  Every method holds
    the mutex from its first to its last statement, so a call is one step
    on this state; [now] is what the clock reads during the call. *)
Record BillsCache : Type := mkBillsCache {
  bills : list Bill;
  lastUpdated : Time;
  ttl : Z
}.

Definition NewBillsCache (ttl : Z) : BillsCache :=
  {| bills := []; lastUpdated := Time_zero; ttl := ttl |}.

Definition BillsCache_Get (now : Time) (c : BillsCache) : list Bill * bool :=
  if (length (bills c) =? 0)%nat then ([], false)
  else if (ttl c <? Since now (lastUpdated c))%Z then ([], false)
  else (bills c, true).

Definition BillsCache_Set (now : Time) (newBills : list Bill) (c : BillsCache)
    : BillsCache :=
  {| bills := newBills; lastUpdated := now; ttl := ttl c |}.

Definition BillsCache_Clear (c : BillsCache) : BillsCache :=
  {| bills := []; lastUpdated := Time_zero; ttl := ttl c |}.

Definition BillsCache_GetLastUpdated (c : BillsCache) : Time := lastUpdated c.

Definition BillsCache_IsExpired (now : Time) (c : BillsCache) : bool :=
  if (length (bills c) =? 0)%nat then true
  else (ttl c <? Since now (lastUpdated c))%Z.

Definition BillsCache_GetSize (c : BillsCache) : Z := Z.of_nat (length (bills c)).

(** * Specification-side definitions

    What the properties speak of, defined without the machinery of the
    code: occurrences of a label, numbered entries, the positions given to
    a model, the writes of the goroutines; and the inputs of the
    examples. *)

(** ** The ranking text parser, read without the regexp engine *)

Definition marker : string := "FINAL RANKING:".

(** [parts[1]], the ranking section. *)
Definition rankingSection (rankingText : string) : string :=
  nth 1 (Split rankingText marker) "".

(** The number of leading bytes of [s] that are in the class [p]. *)
Fixpoint span (p : ascii -> bool) (s : string) : nat :=
  match s with
  | String c s' => if p c then S (span p s') else O
  | EmptyString => O
  end.

(** [s] begins with [Response <uppercase letter>]: ten bytes. *)
Definition response_at (s : string) : option nat :=
  if HasPrefix s "Response " then
    match drop 9 s with
    | String c _ => if upper c then Some 10 else None
    | EmptyString => None
    end
  else None.

(** [s] begins with a decimal number, a period, optional whitespace and
    [Response <uppercase letter>]: the length of all that. *)
Definition numbered_at (s : string) : option nat :=
  let digits := span digit s in
  match digits, drop digits s with
  | S _, String c s1 =>
      if Ascii.eqb c "." then
        let blanks := span space s1 in
        match response_at (drop blanks s1) with
        | Some n => Some (digits + 1 + blanks + n)
        | None => None
        end
      else None
  | _, _ => None
  end.

(** The [Response <letter>] occurrences of a text in document order, each
    one sought after the end of the one before. *)
Definition response_occurrences (text : string) : list string :=
  scan response_at 0 text.

(** Every place of a text where [Response <uppercase letter>] stands,
    from left to right, overlapping places included. *)
Fixpoint response_places (text : string) : list string :=
  (match response_at text with
   | Some n => [take n text]
   | None => []
   end
   ++ match text with
      | String _ text' => response_places text'
      | EmptyString => []
      end)%list.

(** No two such places overlap.  Two places can only overlap by one byte,
    the letter of the first being the [R] of the second. *)
Fixpoint overlap_free (text : string) : bool :=
  match text with
  | String _ text' =>
      negb (bool_decide (is_Some (response_at text))
            && bool_decide (is_Some (response_at (drop 9 text))))
      && overlap_free text'
  | EmptyString => true
  end.

(** A well-formed label. *)
Definition is_label (label : string) : Prop :=
  exists letter : ascii,
    upper letter = true /\ label = "Response " +:+ String letter "".

(** The text of a numbered entry: number, period, blanks, label. *)
Definition numbered_entry (number blanks : string) (letter : ascii) : string :=
  number +:+ "." +:+ blanks +:+ "Response " +:+ String letter "".

Fixpoint all_bytes (p : ascii -> bool) (s : string) : bool :=
  match s with
  | String c s' => p c && all_bytes p s'
  | EmptyString => true
  end.

(** A numbered entry as its three parts, its text and its label. *)
Definition entry : Type := string * string * ascii.

Definition entry_text (e : entry) : string :=
  let '(number, blanks, letter) := e in numbered_entry number blanks letter.

Definition entry_label (e : entry) : string :=
  let '(_, _, letter) := e in "Response " +:+ String letter "".

Definition entry_wf (e : entry) : Prop :=
  let '(number, blanks, letter) := e in
  number <> "" /\ all_bytes digit number = true /\
  all_bytes space blanks = true /\ upper letter = true.

(** ** The aggregator, read as a specification *)

(** The position (counted from 1) an entry of a parsed order gives to
    [model], if its label stands for that model. *)
Definition placed (labelToModel : gmap string string) (model : string)
    (entry : nat * string) : option Z :=
  if decide (labelToModel !! entry.2 = Some model)
  then Some (Z.of_nat entry.1 + 1)%Z else None.

(** The positions one parsed order gives to [model], in order. *)
Definition positions_in (labelToModel : gmap string string)
    (parsed : list string) (model : string) : list Z :=
  omap (placed labelToModel model) (indexed parsed).

(** All the positions given to [model], ranker after ranker. *)
Definition placements (labelToModel : gmap string string)
    (stage2Results : list Stage2Ranking) (model : string) : list Z :=
  flat_map (fun ranking =>
              positions_in labelToModel (Stage2_ParsedRanking ranking) model)
           stage2Results.

(** The number of rankers whose parsed order places [model] somewhere. *)
Definition rankers_placing (labelToModel : gmap string string)
    (stage2Results : list Stage2Ranking) (model : string) : nat :=
  length (filter (fun ranking =>
                    positions_in labelToModel (Stage2_ParsedRanking ranking) model <> [])
                 stage2Results).

Definition Zsum (positions : list Z) : Z := foldr Z.add 0%Z positions.

Section AggregateEntry.
Context `{GoRuntime}.

(** The entry the second loop appends for a model and its positions. *)
Definition aggregate_of (model : string) (positions : list Z) : AggregateRanking :=
  {| Aggregate_Model := model;
     AverageRank := float64_div (float64_of_int (Zsum positions))
                                (float64_of_int (Z.of_nat (length positions)));
     RankingsCount := Z.of_nat (length positions) |}.

End AggregateEntry.

(** ** The executor and the labels *)

(** What the goroutine of the [i]-th model stores for it: the response,
    or [nil] when the call failed. *)
Definition stored (w : World) (seed i : nat) (model : string)
    (messages : list OpenRouterMessage) : option OpenRouterResponse :=
  match QueryModel w seed i model messages (120 * Second) with
  | inl response => Some response
  | inr _ => None
  end.

(** The writes of the goroutines, in the order of their critical sections. *)
Definition writes (w : World) (seed : nat) (models : list string)
    (messages : list OpenRouterMessage) (order : list nat)
    : gmap string (option OpenRouterResponse) :=
  foldl (fun results i =>
           match models !! i with
           | Some model => <[model := stored w seed i model messages]> results
           | None => results
           end)
        ∅ order.

(** The first index whose rune ['A' + i] is a surrogate (U+D800): from
    there on the label is that of U+FFFD. *)
Definition label_limit : nat := Z.to_nat 55231.

(** The code point of a UTF-8 sequence of one to three bytes. *)
Definition decode_utf8 (s : string) : Z :=
  match map (fun c => Z.of_nat (nat_of_ascii c)) (list_ascii_of_string s) with
  | [b0] => b0
  | [b0; b1] => (b0 - 192) * 64 + (b1 - 128)
  | [b0; b1; b2] => (b0 - 224) * 4096 + (b1 - 128) * 64 + (b2 - 128)
  | _ => -1
  end%Z.

(** One entry of the Stage-3 context. *)
Definition stage1_entry (result : Stage1Response) : string :=
  "Model: " +:+ Stage1_Model result +:+ nl
  +:+ "Response: " +:+ Stage1_Response result +:+ nl +:+ nl.

(** [check_from P n z]: [P] holds at [z], [z + 1], ..., [z + n - 1]. *)
Fixpoint check_from (P : Z -> bool) (n : nat) (z : Z) : bool :=
  match n with
  | O => true
  | S n' => P z && check_from P n' (z + 1)
  end.

(** ** Example inputs *)

(** The inputs the specification gives as examples. *)
Definition example_numbered : string :=
  "FINAL RANKING:" +:+ nl +:+ "1. Response B" +:+ nl +:+ "2. Response A"
  +:+ nl +:+ "3. Response C".
Definition example_no_marker : string :=
  "I think Response A is best, then Response C.".
Definition example_nothing_to_rank : string :=
  "FINAL RANKING:" +:+ nl +:+ "No responses to rank.".
Definition example_label_before_marker : string :=
  "Response A is fine." +:+ nl +:+ "FINAL RANKING:" +:+ nl
  +:+ "No responses to rank.".

Definition example_overlap : string := "Response Response A".

(** The three rankers of the specification's example, a full round robin. *)
Definition example_labels : gmap string string :=
  <["Response A" := "model/a"]>
    (<["Response B" := "model/b"]> (<["Response C" := "model/c"]> ∅)).

Definition example_round_robin : list Stage2Ranking :=
  [ {| Stage2_Model := "ranker1"; Stage2_Ranking := "";
       Stage2_ParsedRanking := ["Response A"; "Response B"; "Response C"] |};
    {| Stage2_Model := "ranker2"; Stage2_Ranking := "";
       Stage2_ParsedRanking := ["Response B"; "Response C"; "Response A"] |};
    {| Stage2_Model := "ranker3"; Stage2_Ranking := "";
       Stage2_ParsedRanking := ["Response C"; "Response A"; "Response B"] |} ].

(** One ranker whose parsed order repeats a label. *)
Definition example_repeated_label : list Stage2Ranking :=
  [ {| Stage2_Model := "ranker1"; Stage2_Ranking := "";
       Stage2_ParsedRanking := ["Response A"; "Response A"] |} ].

(** A run in which the call for [model/fail] fails and every other call
    succeeds. *)
Definition example_one_failure : World :=
  {| CouncilModels := ["model/success"; "model/fail"];
     ChairmanModel := "model/chairman";
     QueryModel := fun _ _ model _ _ =>
       if String.eqb model "model/fail"
       then inr (errorString "API returned status 500: Error")
       else inl {| Response_Content := "Success"; ReasoningDetails := None |} |}.

(** A run in which every call fails, and a run in which the calls of
    Stage 1 succeed, those of Stage 2 fail and the chairman answers. *)
Definition example_all_fail : World :=
  {| CouncilModels := ["model/a"; "model/b"];
     ChairmanModel := "model/chairman";
     QueryModel := fun _ _ _ _ _ => inr (errorString "failed to make request") |}.

Definition example_rankers_fail : World :=
  {| CouncilModels := ["model/a"; "model/b"];
     ChairmanModel := "model/chairman";
     QueryModel := fun seed _ model _ _ =>
       match seed with
       | 1 => inl {| Response_Content := "answer of " +:+ model;
                     ReasoningDetails := None |}
       | 2 => inr (errorString "failed to make request")
       | _ => inl {| Response_Content := "final answer"; ReasoningDetails := None |}
       end |}.

(** A run in which only the chairman's call fails. *)
Definition example_chairman_fails : World :=
  {| CouncilModels := ["model/a"; "model/b"];
     ChairmanModel := "model/chairman";
     QueryModel := fun seed _ model _ _ =>
       match seed with
       | 1 => inl {| Response_Content := "answer of " +:+ model;
                     ReasoningDetails := None |}
       | 2 => inl {| Response_Content := "FINAL RANKING:" +:+ nl +:+ "1. Response B"
                                         +:+ nl +:+ "2. Response A";
                     ReasoningDetails := None |}
       | _ => inr (errorString "API returned status 500: Error")
       end |}.

(** The end-to-end run of the specification: two council models and a
    distinct chairman, every call succeeding. *)
Definition example_all_succeed : World :=
  {| CouncilModels := ["model/a"; "model/b"];
     ChairmanModel := "model/chairman";
     QueryModel := fun seed _ model _ _ =>
       match seed with
       | 1 => inl {| Response_Content := "answer of " +:+ model;
                     ReasoningDetails := None |}
       | 2 => inl {| Response_Content := "FINAL RANKING:" +:+ nl +:+ "1. Response B"
                                         +:+ nl +:+ "2. Response A";
                     ReasoningDetails := None |}
       | _ => inl {| Response_Content := "Go is a programming language.";
                     ReasoningDetails := None |}
       end |}.

(** Two Stage-1 results, and a list long enough for two results to get
    the label of U+FFFD. *)
Definition example_two_results : list Stage1Response :=
  [ {| Stage1_Model := "model/a"; Stage1_Response := "Response from model A" |};
    {| Stage1_Model := "model/b"; Stage1_Response := "Response from model B" |} ].

Definition example_long_list : list Stage1Response :=
  (replicate label_limit {| Stage1_Model := "model/a"; Stage1_Response := "" |}
   ++ [ {| Stage1_Model := "model/x"; Stage1_Response := "" |};
        {| Stage1_Model := "model/y"; Stage1_Response := "" |} ])%list.

(** ** What the further properties speak of *)

(** A ranking section written as the prompt asks: numbered entries, each
    after a separator, then a last piece of text.  No separator holds a
    digit. *)
Definition written_list (items : list (string * entry)) (trailer : string) : string :=
  foldr (fun '(separator, e) rest => separator +:+ entry_text e +:+ rest) trailer items.

Definition no_digit (s : string) : bool :=
  all_bytes (fun c => negb (digit c)) s.

(** The number of labels, over all parsed orders, that the label map
    knows. *)
Definition mapped_occurrences (labelToModel : gmap string string)
    (stage2Results : list Stage2Ranking) : nat :=
  length (filter (fun label => is_Some (labelToModel !! label))
                 (flat_map Stage2_ParsedRanking stage2Results)).

(** The number of positions a map of positions holds. *)
Definition total_positions (modelPositions : gmap string (list Z)) : Z :=
  Zsum (map (fun e => Z.of_nat (length e.2)) (map_to_list modelPositions)).

(** What the ranking prompt shows for the result of index [i]. *)
Definition shown_response (i : nat) (result : Stage1Response) : string :=
  labelKey_of i +:+ ":" +:+ nl +:+ Stage1_Response result +:+ nl +:+ nl.

(** The calls that change a cache, and one of them applied to a cache. *)
Inductive CacheUpdate : Type :=
| SetAt (now : Time) (newBills : list Bill)
| ClearCache.

Definition update (c : BillsCache) (u : CacheUpdate) : BillsCache :=
  match u with
  | SetAt now newBills => BillsCache_Set now newBills c
  | ClearCache => BillsCache_Clear c
  end.

(** More example inputs: an answer that ranks without numbers, the items
    of [example_numbered], a council that lists a model twice, and two
    Stage-1 results under other model names. *)
Definition example_unnumbered : string :=
  "Response C is good." +:+ nl +:+ "FINAL RANKING:" +:+ nl
  +:+ "Response B, then Response A".

(** An answer that writes the marker twice, each time before a list. *)
Definition example_two_lists : string :=
  "Response C is best." +:+ nl +:+ "FINAL RANKING:" +:+ nl +:+ "1. Response B" +:+ nl
  +:+ "FINAL RANKING:" +:+ nl +:+ "1. Response A".

Definition example_items : list (string * entry) :=
  [ (nl, ("1", " ", "B"%char)); (nl, ("2", " ", "A"%char)); (nl, ("3", " ", "C"%char)) ].

Definition example_same_model_twice : World :=
  {| CouncilModels := ["model/a"; "model/a"];
     ChairmanModel := "model/chairman";
     QueryModel := fun _ i _ _ _ =>
       match i with
       | 0 => inl {| Response_Content := "first"; ReasoningDetails := None |}
       | _ => inr (errorString "failed to make request")
       end |}.

Definition example_two_results_renamed : list Stage1Response :=
  [ {| Stage1_Model := "model/x"; Stage1_Response := "Response from model A" |};
    {| Stage1_Model := "model/y"; Stage1_Response := "Response from model B" |} ].

(** A title answer in quotes, and a bill. *)
Definition example_title_answers : World :=
  {| CouncilModels := []; ChairmanModel := "model/chairman";
     QueryModel := fun _ _ _ _ _ =>
       inl {| Response_Content := dquote +:+ "Go Programming" +:+ dquote;
              ReasoningDetails := None |} |}.

Definition example_bill : Bill :=
  {| Bill_ID := "r7365"; Bill_Title := "Example Bill 2025";
     DateIntroduced := "03 Sep 2025"; Chamber := "Senate"; Status := "Before Senate";
     PortfolioSponsor := "Attorney-General"; Summary := "";
     BillURL := ""; ExplanatoryMemoURL := ""; ScrapedAt := Time_zero |}.

(** ** A reference runtime

    Exact rationals for [float64], maps walked in the order of
    [map_to_list], goroutines scheduled in launch order, and a stable
    insertion sort (what [sort.Slice] runs on slices of at most twelve
    elements).  It shows that the guarantees asked of a [GoRuntime] can be
    met, and lets the definitions above run on concrete inputs. *)

Module Reference.

Definition Qltb (x y : Q) : bool :=
  (Qnum x * Z.pos (Qden y) <? Qnum y * Z.pos (Qden x))%Z.

Lemma Qltb_lt (x y : Q) : Qltb x y = true <-> (x < y)%Q.
Proof. unfold Qltb, Qlt. apply Z.ltb_lt. Qed.

Section InsertionSort.
Context {A : Type} (less : A -> A -> bool).

Fixpoint insert_sorted (a : A) (x : list A) : list A :=
  match x with
  | [] => [a]
  | b :: x' => if less b a then b :: insert_sorted a x' else a :: b :: x'
  end.

Fixpoint insertion_sort (x : list A) : list A :=
  match x with
  | [] => []
  | a :: x' => insert_sorted a (insertion_sort x')
  end.

Lemma insert_sorted_Permutation (a : A) (x : list A) :
  insert_sorted a x ≡ₚ a :: x.
Proof.
  induction x as [|b x IH]; simpl; [done|].
  destruct (less b a); [|done].
  rewrite IH. apply Permutation_swap.
Qed.

Lemma insertion_sort_Permutation (x : list A) : insertion_sort x ≡ₚ x.
Proof.
  induction x as [|a x IH]; simpl; [done|].
  by rewrite insert_sorted_Permutation, IH.
Qed.

Lemma insert_sorted_Sorted (a : A) (x : list A) :
  (forall b, b ∈ x -> less b a = true -> less a b = false) ->
  Sorted (fun a b => less b a = false) x ->
  Sorted (fun a b => less b a = false) (insert_sorted a x).
Proof.
  intros Hasym Hs. induction Hs as [|b x Hs IH Hhd]; simpl.
  - repeat constructor.
  - destruct (less b a) eqn:Hba.
    + constructor.
      * apply IH. intros c Hc. apply Hasym. by right.
      * destruct Hhd as [|c x' Hbc]; simpl.
        -- constructor. apply Hasym; [left|done].
        -- destruct (less c a); constructor; [done|].
           apply Hasym; [left|done].
    + constructor; [by constructor|]. by constructor.
Qed.

Lemma insertion_sort_Sorted (x : list A) :
  (forall a, a ∈ x -> less a a = false) ->
  (forall a b c, a ∈ x -> b ∈ x -> c ∈ x ->
     less a b = true -> less b c = true -> less a c = true) ->
  Sorted (fun a b => less b a = false) (insertion_sort x).
Proof.
  intros Hirr Htr. induction x as [|a x IH]; simpl; [constructor|].
  apply insert_sorted_Sorted.
  - intros b Hb Hba. rewrite insertion_sort_Permutation in Hb.
    destruct (less a b) eqn:Hab; [|done].
    rewrite <- (Hirr a); [|left].
    symmetry. apply (Htr a b a); try done; try left; by right.
  - apply IH.
    + intros b Hb. apply Hirr. by right.
    + intros b c d Hb Hc Hd. apply Htr; by right.
Qed.

End InsertionSort.

Lemma Qltb_irrefl (x : Q) : Qltb x x = false.
Proof. unfold Qltb. apply Z.ltb_irrefl. Qed.

Lemma Qltb_trans (x y z : Q) :
  Qltb x y = true -> Qltb y z = true -> Qltb x z = true.
Proof. rewrite !Qltb_lt. apply Qlt_trans. Qed.

Lemma Qltb_cotrans (x y z : Q) :
  Qltb x z = true -> Qltb x y = true \/ Qltb y z = true.
Proof.
  rewrite !Qltb_lt. intros Hxz.
  destruct (Qlt_le_dec x y) as [Hxy|Hyx]; [by left|right].
  by eapply Qle_lt_trans.
Qed.

#[export] Instance runtime : GoRuntime := {|
  float64 := Q;
  float64_of_int := inject_Z;
  float64_div := Qdiv;
  float64_lt := Qltb;
  float64_IsNaN := fun _ => false;
  range := fun V _ m => map_to_list m;
  schedule := fun _ n => seq 0 n;
  sort_Slice := fun A less x => insertion_sort less x;
  float64_div_not_NaN := fun _ _ _ => eq_refl;
  float64_lt_irrefl := Qltb_irrefl;
  float64_lt_trans := Qltb_trans;
  float64_lt_cotrans := fun x y z _ _ _ => Qltb_cotrans x y z;
  range_Permutation := fun V _ m => Permutation_refl (map_to_list m);
  schedule_Permutation := fun _ n => Permutation_refl (seq 0 n);
  sort_Slice_Permutation := fun A less x => insertion_sort_Permutation less x;
  sort_Slice_Sorted := fun A less x Hirr Htr _ => insertion_sort_Sorted less x Hirr Htr
|}.

End Reference.

(** A second runtime, to compare with the reference one: maps are walked
    and goroutines are served in the opposite order. *)
Definition lifo_runtime : GoRuntime := {|
  float64 := Q;
  float64_of_int := inject_Z;
  float64_div := Qdiv;
  float64_lt := Reference.Qltb;
  float64_IsNaN := fun _ => false;
  range := fun V _ m => reverse (map_to_list m);
  schedule := fun _ n => reverse (seq 0 n);
  sort_Slice := fun A less x => Reference.insertion_sort less x;
  float64_div_not_NaN := fun _ _ _ => eq_refl;
  float64_lt_irrefl := Reference.Qltb_irrefl;
  float64_lt_trans := Reference.Qltb_trans;
  float64_lt_cotrans := fun x y z _ _ _ => Reference.Qltb_cotrans x y z;
  range_Permutation := fun V _ m => reverse_Permutation (map_to_list m);
  schedule_Permutation := fun _ n => reverse_Permutation (seq 0 n);
  sort_Slice_Permutation := fun A less x => Reference.insertion_sort_Permutation less x;
  sort_Slice_Sorted := fun A less x Hirr Htr _ =>
    Reference.insertion_sort_Sorted less x Hirr Htr
|}.

(** * Properties *)

Section ParserFacts.

Lemma length_drop (n : nat) (s : string) :
  String.length (drop n s) = String.length s - n.
Proof.
  revert s; induction n as [|n IH]; intros [|c s]; simpl; auto with lia.
Qed.

Lemma HasPrefix_length (s p : string) :
  HasPrefix s p = true -> String.length p <= String.length s.
Proof.
  revert s; induction p as [|a p IH]; intros [|c s]; simpl; try lia; try done.
  intros [_ Hp]%andb_prop. apply IH in Hp. lia.
Qed.

Lemma HasPrefix_take_drop (s p : string) :
  HasPrefix s p = true -> s = p +:+ drop (String.length p) s.
Proof.
  revert s; induction p as [|a p IH]; intros [|c s]; simpl; try done.
  intros [Hc Hp]%andb_prop. apply Ascii.eqb_eq in Hc. subst.
  change (String a s = String a (p +:+ drop (String.length p) s)).
  f_equal. by apply IH.
Qed.

Lemma append_String (a : ascii) (p s : string) :
  String a p +:+ s = String a (p +:+ s).
Proof. reflexivity. Qed.

Lemma HasPrefix_app (p s : string) : HasPrefix (p +:+ s) p = true.
Proof.
  induction p as [|a p IH]; [reflexivity|].
  rewrite append_String. simpl. by rewrite Ascii.eqb_refl.
Qed.

Lemma drop_app_length (p s : string) : drop (String.length p) (p +:+ s) = s.
Proof.
  induction p as [|a p IH]; [reflexivity|]. rewrite append_String. apply IH.
Qed.

Lemma take_app_length (p s : string) : take (String.length p) (p +:+ s) = p.
Proof.
  induction p as [|a p IH]; [reflexivity|].
  rewrite append_String. simpl. by rewrite IH.
Qed.

Lemma take_drop (n : nat) (s : string) : take n s +:+ drop n s = s.
Proof.
  revert s; induction n as [|n IH]; intros [|c s]; try reflexivity.
  simpl take. simpl drop. rewrite append_String. by rewrite IH.
Qed.

Lemma backtrack_Lit (p s : string) (k : string -> option string) :
  backtrack (Lit p) s k =
  if HasPrefix s p then k (drop (String.length p) s) else None.
Proof.
  revert s; induction p as [|a p IH]; intros s; simpl; [done|].
  destruct s as [|c s]; [done|].
  destruct (Ascii.eqb c a); simpl; [apply IH|done].
Qed.

(** A greedy run over a class, when what follows cannot start inside
    the run: the whole run is taken. *)
Lemma iterate_Class (p : ascii -> bool) (k : string -> option string)
    (rounds : nat) (s : string) :
  (forall c s', p c = true -> k (String c s') = None) ->
  String.length s <= rounds ->
  iterate (backtrack (Class p)) rounds s k = k (drop (span p s) s).
Proof.
  intros Hk. revert s; induction rounds as [|rounds IH]; intros s Hlen.
  - destruct s; [done|simpl in Hlen; lia].
  - destruct s as [|c s]; [done|]. simpl in Hlen.
    cbn [iterate backtrack span]. destruct (p c) eqn:Hc; [|done].
    cbn [drop String.length].
    replace (String.length s <? S (String.length s))%nat with true
      by (symmetry; apply Nat.ltb_lt; lia).
    rewrite IH by lia.
    destruct (k (drop (span p s) s)) eqn:Hrest; [done|].
    by apply Hk.
Qed.

(** The engine on [Response [A-Z]]. *)
Lemma match_at_responsePattern (s : string) :
  match_at responsePattern s = response_at s.
Proof.
  unfold match_at, responsePattern, response_at.
  change (backtrack (Cat ?r1 ?r2) s Some)
    with (backtrack r1 s (fun s' => backtrack r2 s' Some)).
  rewrite backtrack_Lit.
  destruct (HasPrefix s "Response ") eqn:Hp; [|done].
  apply HasPrefix_length in Hp.
  pose proof (length_drop 9 s) as Hlen.
  change (String.length "Response ") with 9 in *.
  destruct (drop 9 s) as [|c s']; simpl; [done|].
  destruct (upper c); simpl; [|done].
  simpl in Hlen. f_equal. lia.
Qed.

Lemma response_at_not_R (c : ascii) (s : string) :
  c <> "R"%char -> response_at (String c s) = None.
Proof.
  intros Hc. unfold response_at. simpl.
  destruct (Ascii.eqb c "R") eqn:Heq; [|done].
  by apply Ascii.eqb_eq in Heq.
Qed.

Lemma backtrack_Cat (r1 r2 : regexp) (s : string) (k : string -> option string) :
  backtrack (Cat r1 r2) s k = backtrack r1 s (fun s' => backtrack r2 s' k).
Proof. reflexivity. Qed.

Lemma backtrack_Star (r : regexp) (s : string) (k : string -> option string) :
  backtrack (Star r) s k = iterate (backtrack r) (String.length s) s k.
Proof. reflexivity. Qed.

Lemma span_le (p : ascii -> bool) (s : string) : span p s <= String.length s.
Proof. induction s as [|c s IH]; simpl; [lia|]. destruct (p c); lia. Qed.

Lemma response_at_10 (s : string) (n : nat) : response_at s = Some n -> n = 10.
Proof. unfold response_at. repeat case_match; congruence. Qed.

(** The engine on [\d+\.\s*Response [A-Z]]. *)
Lemma match_at_numberedPattern (s : string) :
  match_at numberedPattern s = numbered_at s.
Proof.
  unfold match_at, numbered_at.
  destruct s as [|c s]; [reflexivity|].
  unfold numberedPattern, Plus. rewrite !backtrack_Cat.
  change (backtrack (Class digit) (String c s) ?k) with (if digit c then k s else None).
  cbn [span]. destruct (digit c) eqn:Hc; [|reflexivity].
  rewrite backtrack_Star, iterate_Class; [| |done].
  2:{ intros d s' Hd. rewrite backtrack_Cat. cbn [backtrack].
      destruct (Ascii.eqb d ".") eqn:Heq; [|done].
      apply Ascii.eqb_eq in Heq. by subst. }
  cbv beta. rewrite backtrack_Cat. cbn [drop].
  pose proof (length_drop (span digit s) s) as Hlen1.
  pose proof (span_le digit s) as Hle1.
  destruct (drop (span digit s) s) as [|d s1]; [reflexivity|].
  change (backtrack (Char ".") (String d s1) ?k)
    with (if Ascii.eqb d "." then k s1 else None).
  destruct (Ascii.eqb d "."); [|reflexivity].
  rewrite backtrack_Cat, backtrack_Star, iterate_Class; [| |done].
  2:{ intros e s' He. rewrite backtrack_Cat, backtrack_Lit. cbn [HasPrefix].
      destruct (Ascii.eqb e "R") eqn:Heq; [|done].
      apply Ascii.eqb_eq in Heq. by subst. }
  cbv beta.
  pose proof (length_drop (span space s1) s1) as Hlen2.
  pose proof (span_le space s1) as Hle2.
  pose proof (match_at_responsePattern (drop (span space s1) s1)) as Hresp.
  unfold match_at, responsePattern in Hresp.
  destruct (backtrack (Cat (Lit "Response ") (Class upper))
              (drop (span space s1) s1) Some) as [rest|].
  - cbn in Hresp. rewrite <- Hresp. symmetry in Hresp.
    apply response_at_10 in Hresp. cbn in Hlen1 |- *. f_equal. lia.
  - cbn in Hresp. by rewrite <- Hresp.
Qed.

Lemma scan_ext (f g : string -> option nat) (skip : nat) (s : string) :
  (forall t, f t = g t) -> scan f skip s = scan g skip s.
Proof.
  intros Hfg. revert skip; induction s as [|c s IH]; intros [|skip]; simpl;
    rewrite <- ?Hfg; try done.
  destruct (f (String c s)) as [[|n]|]; by rewrite ?IH.
Qed.

Lemma FindAllString_responsePattern (s : string) :
  FindAllString responsePattern s = response_occurrences s.
Proof. apply scan_ext, match_at_responsePattern. Qed.

Lemma FindAllString_numberedPattern (s : string) :
  FindAllString numberedPattern s = scan numbered_at 0 s.
Proof. apply scan_ext, match_at_numberedPattern. Qed.

(** What [scan] reports, one match after the other. *)
Lemma scan_matches (f : string -> option nat) (skip : nat) (s : string) :
  Forall (fun m => exists t n, f t = Some (S n) /\ m = take (S n) t) (scan f skip s).
Proof.
  revert skip; induction s as [|c s IH]; intros [|skip]; simpl; auto.
  - destruct (f "") as [[|n]|] eqn:Hf; auto.
    constructor; [|constructor]. by exists "", n.
  - destruct (f (String c s)) as [[|n]|] eqn:Hf; auto.
    constructor; [|apply IH]. by exists (String c s), n.
Qed.

Lemma append_assoc (a b c : string) : (a +:+ b) +:+ c = a +:+ (b +:+ c).
Proof.
  induction a as [|x a IH]; [reflexivity|].
  rewrite !append_String. by rewrite IH.
Qed.

Lemma length_append (a b : string) :
  String.length (a +:+ b) = String.length a + String.length b.
Proof.
  induction a as [|x a IH]; [reflexivity|].
  rewrite append_String. simpl. by rewrite IH.
Qed.

Lemma take_span (p : ascii -> bool) (s : string) :
  all_bytes p (take (span p s) s) = true /\
  String.length (take (span p s) s) = span p s.
Proof.
  induction s as [|c s [IH1 IH2]]; simpl; [done|].
  destruct (p c) eqn:Hc; simpl; [|done].
  rewrite Hc, IH1, IH2. done.
Qed.

(** A match of the numbered pattern is a numbered entry. *)
Lemma numbered_at_entry (t : string) (n : nat) :
  numbered_at t = Some n ->
  exists number blanks letter,
    take n t = numbered_entry number blanks letter /\
    number <> "" /\ all_bytes digit number = true /\
    all_bytes space blanks = true /\ upper letter = true.
Proof.
  unfold numbered_at. intros Hn.
  destruct (span digit t) as [|d] eqn:Hd; [done|].
  destruct (drop (S d) t) as [|c s1] eqn:Hdrop; [done|].
  destruct (Ascii.eqb c ".") eqn:Hc; [|done]. apply Ascii.eqb_eq in Hc. subst c.
  destruct (response_at (drop (span space s1) s1)) as [m|] eqn:Hr; [|done].
  injection Hn as <-.
  pose proof (response_at_10 _ _ Hr) as ->.
  unfold response_at in Hr.
  destruct (HasPrefix (drop (span space s1) s1) "Response ") eqn:Hp; [|done].
  apply HasPrefix_take_drop in Hp. change (String.length "Response ") with 9 in Hp.
  destruct (drop 9 (drop (span space s1) s1)) as [|letter rest] eqn:Hl; [done|].
  destruct (upper letter) eqn:Hu; [|done].
  destruct (take_span digit t) as [Hd1 Hd2], (take_span space s1) as [Hs1 Hs2].
  rewrite Hd in Hd1, Hd2.
  exists (take (S d) t), (take (span space s1) s1), letter.
  split; [|split; [|done]].
  - set (e := numbered_entry (take (S d) t) (take (span space s1) s1) letter).
    assert (Ht : t = e +:+ rest).
    { unfold e, numbered_entry.
      rewrite <- (take_drop (S d) t) at 1. rewrite Hdrop.
      rewrite <- (take_drop (span space s1) s1) at 1. rewrite Hp.
      rewrite !append_assoc. reflexivity. }
    assert (Hlen : S d + 1 + span space s1 + 10 = String.length e).
    { unfold e, numbered_entry. rewrite !length_append, Hd2, Hs2. simpl. lia. }
    clearbody e. transitivity (take (String.length e) t); [f_equal; lia|].
    rewrite Ht. apply take_app_length.
  - intros Hempty. rewrite Hempty in Hd2. done.
Qed.

Lemma response_occurrences_skip (pre s : string) :
  all_bytes (fun c => negb (Ascii.eqb c "R")) pre = true ->
  response_occurrences (pre +:+ s) = response_occurrences s.
Proof.
  unfold response_occurrences.
  induction pre as [|c pre IH]; [reflexivity|].
  rewrite append_String. cbn [all_bytes]. intros [Hc Hpre]%andb_prop.
  cbn [scan]. rewrite response_at_not_R.
  - by apply IH.
  - intros ->. done.
Qed.

Lemma all_bytes_impl (p q : ascii -> bool) (s : string) :
  (forall c, p c = true -> q c = true) ->
  all_bytes p s = true -> all_bytes q s = true.
Proof.
  intros Hpq. induction s as [|c s IH]; simpl; [done|].
  intros [Hc Hs]%andb_prop. by rewrite (Hpq c Hc), IH.
Qed.

Lemma all_bytes_append (p : ascii -> bool) (a b : string) :
  all_bytes p a = true -> all_bytes p b = true -> all_bytes p (a +:+ b) = true.
Proof.
  intros Ha Hb. induction a as [|c a IH]; [done|].
  rewrite append_String. simpl in *. apply andb_prop in Ha as [Hc Ha].
  by rewrite Hc, IH.
Qed.

(** The label found inside a numbered entry. *)
Lemma FindString_numbered_entry (number blanks : string) (letter : ascii) :
  all_bytes digit number = true -> all_bytes space blanks = true ->
  upper letter = true ->
  FindString responsePattern (numbered_entry number blanks letter)
  = "Response " +:+ String letter "".
Proof.
  intros Hnum Hbl Hu. unfold FindString, numbered_entry.
  rewrite FindAllString_responsePattern.
  replace (number +:+ "." +:+ blanks +:+ "Response " +:+ String letter "")
    with ((number +:+ "." +:+ blanks) +:+ ("Response " +:+ String letter ""))
    by (rewrite !append_assoc; reflexivity).
  rewrite response_occurrences_skip.
  - unfold response_occurrences. cbv -[upper]. by rewrite Hu.
  - repeat apply all_bytes_append.
    + eapply all_bytes_impl; [|exact Hnum].
      intros c Hc. destruct (Ascii.eqb c "R") eqn:Heq; [|done].
      apply Ascii.eqb_eq in Heq. by subst.
    + done.
    + eapply all_bytes_impl; [|exact Hbl].
      intros c Hc. destruct (Ascii.eqb c "R") eqn:Heq; [|done].
      apply Ascii.eqb_eq in Heq. by subst.
Qed.

Lemma Split_rounds_nonempty (rounds : nat) (s sep : string) :
  1 <= length (Split_rounds rounds s sep).
Proof. destruct rounds; simpl; [lia|]. destruct (Index s sep); simpl; lia. Qed.

(** When the marker occurs, [Split] gives at least two parts: the test
    [len(parts) >= 2] of the source always succeeds. *)
Lemma Split_marker (text : string) :
  Contains text marker = true -> 2 <= length (Split text marker).
Proof.
  unfold Contains, Split. intros [m Hm]%bool_decide_eq_true.
  destruct text as [|c text]; [done|].
  cbn [String.length Split_rounds]. rewrite Hm. cbn [length].
  pose proof (Split_rounds_nonempty (String.length text)
                (drop (m + String.length marker) (String c text)) marker).
  lia.
Qed.

(** [scan] finds nothing exactly when no match starts anywhere. *)
Lemma scan_nil (f : string -> option nat) (skip : nat) (s : string) :
  (forall i, f (drop i s) = None) -> scan f skip s = [].
Proof.
  revert skip. induction s as [|c s IH]; intros skip Hnone;
    pose proof (Hnone 0) as Hhere; cbn [drop] in Hhere.
  - destruct skip; [|done]. cbn [scan]. by rewrite Hhere.
  - assert (Htail : forall i, f (drop i s) = None) by (intros i; apply (Hnone (S i))).
    destruct skip as [|skip]; cbn [scan]; [|by apply IH].
    rewrite Hhere. by apply IH.
Qed.

Lemma scan_not_nil (f : string -> option nat) (s : string) (i n : nat) :
  f (drop i s) = Some (S n) -> scan f 0 s <> [].
Proof.
  revert i. induction s as [|c s IH]; intros i Hi.
  - replace (drop i "") with "" in Hi by (by destruct i).
    cbn [scan]. by rewrite Hi.
  - cbn [scan]. destruct (f (String c s)) as [[|m]|] eqn:Hhere; [|done|];
      (destruct i as [|i]; [cbn [drop] in Hi; congruence|by apply (IH i)]).
Qed.

Lemma numbered_at_positive (t : string) (n : nat) :
  numbered_at t = Some n -> exists n', n = S n'.
Proof.
  unfold numbered_at. intros Hn. repeat case_match; try done.
  injection Hn as <-. eauto.
Qed.

Lemma FindAllString_numberedPattern_nil (s : string) :
  FindAllString numberedPattern s = [] <-> forall i, numbered_at (drop i s) = None.
Proof.
  rewrite FindAllString_numberedPattern. split; [|apply scan_nil].
  intros Hnil i. destruct (numbered_at (drop i s)) as [n|] eqn:Hn; [|done].
  destruct (numbered_at_positive _ _ Hn) as [n' ->].
  by apply scan_not_nil in Hn.
Qed.

Lemma FindAllString_responsePattern_nil (s : string) :
  FindAllString responsePattern s = [] <-> forall i, response_at (drop i s) = None.
Proof.
  rewrite FindAllString_responsePattern. unfold response_occurrences.
  split; [|apply scan_nil].
  intros Hnil i. destruct (response_at (drop i s)) as [n|] eqn:Hn; [|done].
  pose proof (response_at_10 _ _ Hn) as ->.
  by apply scan_not_nil in Hn.
Qed.

(** [strings.Contains]: the substring stands somewhere in the text. *)
Lemma Contains_true (s sub : string) :
  Contains s sub = true <-> exists i, HasPrefix (drop i s) sub = true.
Proof.
  unfold Contains. rewrite bool_decide_eq_true. split.
  - intros [m Hm]. revert m Hm. induction s as [|c s IH]; intros m; cbn [Index].
    + destruct (HasPrefix "" sub) eqn:Hp; [|done]. intros _. by exists 0.
    + destruct (HasPrefix (String c s) sub) eqn:Hp; [intros _; by exists 0|].
      destruct (Index s sub) as [m'|] eqn:Hm'; [|done]. intros _.
      destruct (IH m' eq_refl) as [i Hi]. by exists (S i).
  - intros [i Hi]. revert i Hi. induction s as [|c s IH]; intros i Hi; cbn [Index].
    + replace (drop i "") with "" in Hi by (by destruct i). by rewrite Hi.
    + destruct (HasPrefix (String c s) sub) eqn:Hp; [done|].
      destruct i as [|i]; [cbn [drop] in Hi; congruence|].
      destruct (IH i Hi) as [m Hm]. rewrite Hm. done.
Qed.

(** [Split] does not depend on the number of rounds once there are as
    many as bytes: every cut is made. *)
Lemma Split_rounds_enough (sep : string) (r1 r2 : nat) (s : string) :
  sep <> "" -> String.length s <= r1 -> String.length s <= r2 ->
  Split_rounds r1 s sep = Split_rounds r2 s sep.
Proof.
  intros Hsep. revert r2 s.
  assert (Hempty : forall r, Split_rounds r "" sep = [""]).
  { intros [|r]; [done|]. simpl. by destruct sep. }
  induction r1 as [|r1 IH]; intros r2 s Hr1 Hr2.
  - destruct s; [|simpl in Hr1; lia]. by rewrite !Hempty.
  - destruct r2 as [|r2].
    + destruct s; [|simpl in Hr2; lia]. by rewrite !Hempty.
    + cbn [Split_rounds]. destruct (Index s sep) as [m|]; [|done].
      f_equal. destruct s as [|c s].
      { replace (drop (m + String.length sep) "") with ""
          by (by destruct (m + String.length sep)).
        by rewrite !Hempty. }
      simpl in Hr1, Hr2.
      apply IH; rewrite length_drop; simpl;
        destruct sep; try done; simpl; lia.
Qed.

Lemma Split_unfold (s sep : string) :
  sep <> "" ->
  Split s sep =
  match Index s sep with
  | None => [s]
  | Some m => take m s :: Split (drop (m + String.length sep) s) sep
  end.
Proof.
  intros Hsep. unfold Split.
  destruct (Index s sep) as [m|] eqn:Hm.
  - destruct s as [|c s]; simpl in Hm |- *.
    + destruct sep; [done|]. simpl in Hm. done.
    + rewrite Hm. f_equal. apply Split_rounds_enough; [done| |done].
      rewrite length_drop. simpl. destruct sep; [done|]. simpl. lia.
  - destruct (String.length s); simpl; by rewrite ?Hm.
Qed.

(** The ranking section is the text between the first marker and the
    next one, or the end of the text. *)
Lemma rankingSection_first_marker (text : string) (m : nat) :
  Index text marker = Some m ->
  rankingSection text =
  let rest := drop (m + String.length marker) text in
  match Index rest marker with
  | Some k => take k rest
  | None => rest
  end.
Proof.
  intros Hm. unfold rankingSection.
  rewrite Split_unfold, Hm by done. cbn [nth]. cbv zeta.
  rewrite Split_unfold by done.
  by destruct (Index (drop (m + String.length marker) text) marker).
Qed.

(** The parser once the marker is found. *)
Lemma ParseRankingFromText_marker (text : string) :
  Contains text marker = true ->
  ParseRankingFromText text =
  let numberedMatches := FindAllString numberedPattern (rankingSection text) in
  if (0 <? length numberedMatches)%nat then
    flat_map (fun m =>
                let resp := FindString responsePattern m in
                if String.eqb resp "" then [] else [resp])
             numberedMatches
  else
    let matches := FindAllString responsePattern (rankingSection text) in
    if (0 <? length matches)%nat then matches
    else FindAllString responsePattern text.
Proof.
  intros Hc. unfold ParseRankingFromText. fold marker. rewrite Hc.
  apply Split_marker, Nat.leb_le in Hc. by rewrite Hc.
Qed.

(** The numbered matches of a text are numbered entries, and the loop
    over them collects their labels. *)
Lemma numbered_matches_entries (section : string) :
  exists entries : list entry,
    FindAllString numberedPattern section = map entry_text entries /\
    Forall entry_wf entries /\
    flat_map (fun m =>
                if String.eqb (FindString responsePattern m) ""
                then [] else [FindString responsePattern m])
             (FindAllString numberedPattern section)
    = map entry_label entries.
Proof.
  rewrite FindAllString_numberedPattern.
  pose proof (scan_matches numbered_at 0 section) as Hall.
  induction Hall as [|m ms (t & n & Hn & ->) _ (entries & Htext & Hwf & Hlab)].
  - by exists [].
  - apply numbered_at_entry in Hn
      as (number & blanks & letter & -> & Hne & Hd & Hs & Hu).
    exists ((number, blanks, letter) :: entries). split_and!.
    + simpl. by rewrite Htext.
    + by constructor.
    + cbn [flat_map map entry_label]. rewrite Hlab.
      rewrite FindString_numbered_entry by done. reflexivity.
Qed.

Lemma scan_response_at_skip (skip : nat) (s : string) :
  scan response_at skip s = scan response_at 0 (drop skip s).
Proof.
  revert s. induction skip as [|skip IH]; intros s; [done|].
  destruct s as [|c s]; [done|]. apply IH.
Qed.

Lemma response_places_drop (k : nat) (s : string) :
  (forall j, j < k -> response_at (drop j s) = None) ->
  response_places s = response_places (drop k s).
Proof.
  revert s. induction k as [|k IH]; intros s Hnone; [done|].
  destruct s as [|c s]; [done|].
  pose proof (Hnone 0 ltac:(lia)) as Hhere. cbn [drop] in Hhere.
  cbn [response_places drop]. rewrite Hhere. cbn [app].
  apply IH. intros j Hj. apply (Hnone (S j)). lia.
Qed.

(** Inside a place, one to eight bytes after its start, no place starts. *)
Lemma response_at_inside (s : string) (j : nat) :
  response_at s <> None -> 1 <= j <= 8 -> response_at (drop j s) = None.
Proof.
  intros Hs Hj. unfold response_at in Hs.
  destruct (HasPrefix s "Response ") eqn:Hp; [|done].
  apply HasPrefix_take_drop in Hp. rewrite Hp.
  destruct j as [|[|[|[|[|[|[|[|[|j]]]]]]]]]; try lia;
    (apply response_at_not_R; discriminate).
Qed.

Lemma overlap_free_drop (k : nat) (s : string) :
  overlap_free s = true -> overlap_free (drop k s) = true.
Proof.
  revert s. induction k as [|k IH]; intros s Hs; [done|].
  destruct s as [|c s]; [done|].
  cbn [overlap_free] in Hs. apply andb_prop in Hs as [_ Hs]. by apply IH.
Qed.

Lemma response_occurrences_places_bounded (n : nat) (s : string) :
  String.length s <= n -> overlap_free s = true ->
  response_occurrences s = response_places s.
Proof.
  unfold response_occurrences. revert s.
  induction n as [|n IH]; intros s Hlen Hfree.
  - destruct s; [done|simpl in Hlen; lia].
  - destruct s as [|c s]; [done|]. simpl in Hlen.
    cbn [scan response_places].
    destruct (response_at (String c s)) as [m|] eqn:Hat.
    + pose proof (response_at_10 _ _ Hat) as ->.
      cbn [app]. f_equal.
      rewrite scan_response_at_skip.
      rewrite IH.
      * symmetry. apply response_places_drop. intros j Hj.
        change (drop j s) with (drop (S j) (String c s)).
        destruct (decide (j = 8)) as [->|Hne].
        -- cbn [overlap_free] in Hfree. apply andb_prop in Hfree as [Hfree _].
           rewrite Hat in Hfree.
           destruct (response_at (drop 9 (String c s))); [|done].
           rewrite !bool_decide_eq_true_2 in Hfree by eauto. done.
        -- apply response_at_inside; [by rewrite Hat|lia].
      * rewrite length_drop. lia.
      * apply overlap_free_drop. cbn [overlap_free] in Hfree.
        by apply andb_prop in Hfree as [_ Hfree].
    + cbn [app]. apply IH; [lia|].
      cbn [overlap_free] in Hfree. by apply andb_prop in Hfree as [_ Hfree].
Qed.

(** What the scan for [Response [A-Z]] reports is a label. *)
Lemma response_at_label (t : string) (n : nat) :
  response_at t = Some n -> is_label (take n t).
Proof.
  intros Hat. pose proof (response_at_10 _ _ Hat) as ->.
  unfold response_at in Hat.
  destruct (HasPrefix t "Response ") eqn:Hp; [|done].
  apply HasPrefix_take_drop in Hp. change (String.length "Response ") with 9 in Hp.
  destruct (drop 9 t) as [|letter rest]; [done|].
  destruct (upper letter) eqn:Hu; [|done].
  exists letter. split; [done|]. rewrite Hp. reflexivity.
Qed.

Lemma response_occurrences_labels (text : string) :
  Forall is_label (response_occurrences text).
Proof.
  eapply Forall_impl; [apply scan_matches|].
  intros m (t & n & Hat & ->). by apply response_at_label.
Qed.

End ParserFacts.

(** ** Facts about the aggregator *)

Section AggregatorFacts.
Context `{GoRuntime}.
Implicit Types (labelToModel : gmap string string).
Implicit Types (modelPositions : gmap string (list Z)).

Lemma record_position_lookup labelToModel modelPositions entry model :
  default [] (record_position labelToModel modelPositions entry !! model)
  = (default [] (modelPositions !! model)
     ++ from_option (fun z => [z]) [] (placed labelToModel model entry))%list.
Proof.
  destruct entry as [position label]. unfold record_position, placed. simpl.
  destruct (labelToModel !! label) as [modelName|].
  - destruct (decide (modelName = model)) as [->|Hne].
    + rewrite lookup_insert_eq. by rewrite decide_True.
    + rewrite lookup_insert_ne by done.
      rewrite decide_False by congruence. simpl. by rewrite app_nil_r.
  - rewrite decide_False by done. simpl. by rewrite app_nil_r.
Qed.

Lemma record_position_nonempty labelToModel modelPositions entry :
  (forall model positions, modelPositions !! model = Some positions -> positions <> []) ->
  forall model positions,
    record_position labelToModel modelPositions entry !! model = Some positions ->
    positions <> [].
Proof.
  intros Hinv model positions. destruct entry as [position label].
  unfold record_position.
  destruct (labelToModel !! label) as [modelName|]; [|apply Hinv].
  destruct (decide (modelName = model)) as [->|Hne].
  - rewrite lookup_insert_eq. intros [= <-]. by destruct (default [] _).
  - rewrite lookup_insert_ne by done. apply Hinv.
Qed.

Lemma foldl_record_position_lookup labelToModel entries modelPositions model :
  default [] (foldl (record_position labelToModel) modelPositions entries !! model)
  = (default [] (modelPositions !! model)
     ++ omap (placed labelToModel model) entries)%list.
Proof.
  revert modelPositions. induction entries as [|entry entries IH]; intros mp; simpl.
  - by rewrite app_nil_r.
  - rewrite IH, record_position_lookup, <- app_assoc. f_equal.
    by destruct (placed labelToModel model entry).
Qed.

Lemma foldl_record_position_nonempty labelToModel entries modelPositions :
  (forall model positions, modelPositions !! model = Some positions -> positions <> []) ->
  forall model positions,
    foldl (record_position labelToModel) modelPositions entries !! model = Some positions ->
    positions <> [].
Proof.
  revert modelPositions. induction entries as [|entry entries IH]; intros mp Hinv; simpl.
  - done.
  - apply IH. by apply record_position_nonempty.
Qed.

(** The first loop, started from any map. *)
Lemma foldl_rankings_lookup labelToModel stage2Results modelPositions model :
  default []
    (foldl (fun modelPositions ranking =>
              foldl (record_position labelToModel) modelPositions
                    (indexed (Stage2_ParsedRanking ranking)))
           modelPositions stage2Results !! model)
  = (default [] (modelPositions !! model)
     ++ placements labelToModel stage2Results model)%list.
Proof.
  revert modelPositions.
  induction stage2Results as [|ranking rankings IH]; intros mp; simpl.
  - by rewrite app_nil_r.
  - rewrite IH, foldl_record_position_lookup, <- app_assoc. done.
Qed.

Lemma foldl_rankings_nonempty labelToModel stage2Results modelPositions :
  (forall model positions, modelPositions !! model = Some positions -> positions <> []) ->
  forall model positions,
    foldl (fun modelPositions ranking =>
             foldl (record_position labelToModel) modelPositions
                   (indexed (Stage2_ParsedRanking ranking)))
          modelPositions stage2Results !! model = Some positions ->
    positions <> [].
Proof.
  revert modelPositions.
  induction stage2Results as [|ranking rankings IH]; intros mp Hinv; simpl.
  - done.
  - apply IH. by apply foldl_record_position_nonempty.
Qed.

(** What the first loop leaves in the map: for each model its placements,
    and no entry for a model nobody placed. *)
Lemma collect_positions_lookup stage2Results labelToModel model positions :
  collect_positions stage2Results labelToModel !! model = Some positions <->
  positions <> [] /\ positions = placements labelToModel stage2Results model.
Proof.
  unfold collect_positions.
  pose proof (foldl_rankings_lookup labelToModel stage2Results ∅ model) as Hview.
  pose proof (foldl_rankings_nonempty labelToModel stage2Results ∅) as Hne.
  rewrite lookup_empty in Hview. simpl in Hview.
  split.
  - intros Hlook. split.
    + eapply Hne; [|exact Hlook]. intros m ps. by rewrite lookup_empty.
    + rewrite Hlook in Hview. done.
  - intros [Hnil ->]. destruct (foldl _ _ _ !! model) as [ps|]; simpl in Hview.
    + by rewrite Hview.
    + by rewrite <- Hview in Hnil.
Qed.

Lemma sum_positions_Zsum (positions : list Z) :
  sum_positions positions = Zsum positions.
Proof.
  unfold sum_positions, Zsum.
  assert (Hgen : forall a, foldl Z.add a positions = (a + foldr Z.add 0 positions)%Z).
  { induction positions as [|p ps IH]; intros a; simpl; [lia|]. rewrite IH. lia. }
  rewrite Hgen. lia.
Qed.

Lemma elem_of_average_positions (entries : list (string * list Z)) (a : AggregateRanking) :
  a ∈ average_positions entries <->
  exists model positions,
    (model, positions) ∈ entries /\ positions <> [] /\ a = aggregate_of model positions.
Proof.
  unfold average_positions. rewrite list_elem_of_In, in_flat_map. split.
  - intros ([model positions] & Hin & Ha). exists model, positions.
    apply list_elem_of_In in Hin. destruct positions as [|p ps]; simpl in Ha; [done|].
    destruct Ha as [<-|[]]. split_and!; [done..|].
    unfold aggregate_of. by rewrite sum_positions_Zsum.
  - intros (model & positions & Hin & Hne & ->). exists (model, positions).
    split; [by apply list_elem_of_In|].
    destruct positions as [|p ps]; [done|]. left.
    unfold aggregate_of. by rewrite sum_positions_Zsum.
Qed.

(** The entries of the result, whatever the order of the map and of the sort. *)
Lemma elem_of_CalculateAggregateRankings stage2Results labelToModel (a : AggregateRanking) :
  a ∈ CalculateAggregateRankings stage2Results labelToModel <->
  exists model,
    placements labelToModel stage2Results model <> [] /\
    a = aggregate_of model (placements labelToModel stage2Results model).
Proof.
  unfold CalculateAggregateRankings.
  rewrite sort_Slice_Permutation, elem_of_average_positions.
  split.
  - intros (model & positions & Hin & Hne & ->).
    rewrite range_Permutation in Hin.
    apply elem_of_map_to_list, collect_positions_lookup in Hin as [_ ->].
    by exists model.
  - intros (model & Hne & ->).
    exists model, (placements labelToModel stage2Results model).
    split_and!; [|done..].
    rewrite range_Permutation. by apply elem_of_map_to_list, collect_positions_lookup.
Qed.

Lemma NoDup_average_positions (entries : list (string * list Z)) :
  NoDup (map fst entries) ->
  NoDup (map Aggregate_Model (average_positions entries)).
Proof.
  induction entries as [|[model positions] entries IH]; simpl; [constructor|].
  intros [Hnotin Hnodup]%NoDup_cons. specialize (IH Hnodup).
  destruct positions as [|p ps]; simpl; [done|].
  apply NoDup_cons. split; [|done].
  intros Hin. apply Hnotin.
  apply list_elem_of_In, in_map_iff in Hin as (a & Hmodel & Ha).
  apply list_elem_of_In, elem_of_average_positions in Ha
    as (model' & positions' & Hin' & _ & ->).
  simpl in Hmodel. subst model'.
  apply list_elem_of_In, in_map_iff. exists (model, positions').
  split; [done|]. by apply list_elem_of_In.
Qed.

Lemma NoDup_CalculateAggregateRankings stage2Results labelToModel :
  NoDup (map Aggregate_Model (CalculateAggregateRankings stage2Results labelToModel)).
Proof.
  unfold CalculateAggregateRankings.
  rewrite sort_Slice_Permutation.
  assert (Hperm : map Aggregate_Model
                    (average_positions
                       (map_to_list (collect_positions stage2Results labelToModel)))
                  ≡ₚ map Aggregate_Model
                       (average_positions
                          (range 3 (collect_positions stage2Results labelToModel)))).
  { apply Permutation_map, Permutation_flat_map, Permutation_sym, range_Permutation. }
  rewrite <- Hperm.
  apply NoDup_average_positions, NoDup_fst_map_to_list.
Qed.

Lemma Sorted_StronglySorted_on {A : Type} (R : A -> A -> Prop) (l : list A) :
  (forall a b c, a ∈ l -> b ∈ l -> c ∈ l -> R a b -> R b c -> R a c) ->
  Sorted R l -> StronglySorted R l.
Proof.
  intros Htrans Hsorted. induction Hsorted as [|a l Hsorted IH Hhd]; [constructor|].
  assert (Hl : StronglySorted R l).
  { apply IH. intros x y z Hx Hy Hz. apply Htrans; by right. }
  constructor; [done|].
  destruct Hhd as [|b l' Hab]; [constructor|].
  apply StronglySorted_inv in Hl as [_ Hall].
  constructor; [done|].
  rewrite Forall_forall in Hall |- *. intros c Hc.
  apply (Htrans a b c); [left|right; left|do 2 right|done|by apply Hall].
  done.
Qed.

Lemma StronglySorted_lookup {A : Type} (R : A -> A -> Prop) (l : list A)
    (i j : nat) (a b : A) :
  StronglySorted R l -> i < j -> l !! i = Some a -> l !! j = Some b -> R a b.
Proof.
  intros Hsorted. revert i j.
  induction Hsorted as [|x l Hsorted IH Hall]; intros i j Hij Hi Hj; [done|].
  destruct j as [|j]; [lia|]. destruct i as [|i]; simpl in *.
  - injection Hi as <-. rewrite Forall_forall in Hall.
    apply Hall, list_elem_of_lookup. by exists j.
  - apply (IH i j); [lia|done..].
Qed.

Lemma aggregate_of_not_NaN (model : string) (positions : list Z) :
  positions <> [] ->
  float64_IsNaN (AverageRank (aggregate_of model positions)) = false.
Proof.
  intros Hne. apply float64_div_not_NaN. destruct positions; [done|]. simpl. lia.
Qed.

(** The result is in the order [sort.Slice] promises for [less_AverageRank]:
    no entry has a smaller average rank than an entry before it. *)
Lemma CalculateAggregateRankings_StronglySorted stage2Results labelToModel :
  StronglySorted
    (fun a b => float64_lt (AverageRank b) (AverageRank a) = false)
    (CalculateAggregateRankings stage2Results labelToModel).
Proof.
  assert (HnotNaN : forall a,
            a ∈ CalculateAggregateRankings stage2Results labelToModel ->
            float64_IsNaN (AverageRank a) = false).
  { intros a (model & Hne & ->)%elem_of_CalculateAggregateRankings.
    by apply aggregate_of_not_NaN. }
  apply Sorted_StronglySorted_on.
  - intros a b c Ha Hb Hc Hab Hbc.
    destruct (float64_lt (AverageRank c) (AverageRank a)) eqn:Hca; [|done].
    apply (float64_lt_cotrans _ (AverageRank b)) in Hca as [Hcb|Hba];
      auto; congruence.
  - revert HnotNaN. unfold CalculateAggregateRankings. intros HnotNaN.
    apply (sort_Slice_Sorted _ less_AverageRank).
    + intros a _. apply float64_lt_irrefl.
    + intros a b c _ _ _. apply float64_lt_trans.
    + intros a b c Ha Hb Hc. unfold less_AverageRank.
      apply float64_lt_cotrans; apply HnotNaN; by rewrite sort_Slice_Permutation.
Qed.

Lemma placements_nonempty labelToModel stage2Results model :
  placements labelToModel stage2Results model <> [] <->
  exists ranking label,
    ranking ∈ stage2Results /\ label ∈ Stage2_ParsedRanking ranking /\
    labelToModel !! label = Some model.
Proof.
  split.
  - intros Hne.
    destruct (placements labelToModel stage2Results model) as [|p ps] eqn:Hp; [done|].
    assert (Hin : In p (placements labelToModel stage2Results model))
      by (rewrite Hp; by left).
    apply in_flat_map in Hin as (ranking & Hranking & Hin).
    apply list_elem_of_In, list_elem_of_omap in Hin as ([i label] & Hentry & Hplaced).
    apply elem_of_lookup_imap in Hentry as (i' & label' & [= <- <-] & Hlookup).
    unfold placed in Hplaced. simpl in Hplaced.
    destruct (decide (labelToModel !! label = Some model)); [|done].
    exists ranking, label. split_and!; [by apply list_elem_of_In| |done].
    apply list_elem_of_lookup. by exists i.
  - intros (ranking & label & Hranking & Hlabel & Hmodel) Hnil.
    apply list_elem_of_lookup in Hlabel as [i Hi].
    assert (Hin : In (Z.of_nat i + 1)%Z (placements labelToModel stage2Results model)).
    { apply in_flat_map. exists ranking. split; [by apply list_elem_of_In|].
      apply list_elem_of_In, list_elem_of_omap. exists (i, label). split.
      - by apply (elem_of_lookup_imap_2 (fun i x => (i, x))).
      - unfold placed. simpl. by rewrite decide_True. }
    by rewrite Hnil in Hin.
Qed.

(** When no parsed order places a model twice, its placements are as many
    as the rankers that placed it. *)
Lemma placements_length_rankers labelToModel stage2Results model :
  (forall ranking, ranking ∈ stage2Results ->
     length (positions_in labelToModel (Stage2_ParsedRanking ranking) model) <= 1) ->
  length (placements labelToModel stage2Results model)
  = rankers_placing labelToModel stage2Results model.
Proof.
  unfold placements, rankers_placing.
  induction stage2Results as [|ranking rankings IH]; intros Honce; [done|].
  cbn [flat_map]. rewrite length_app, filter_cons.
  rewrite IH by (intros r Hr; apply Honce; by right).
  specialize (Honce ranking ltac:(left)).
  destruct (positions_in labelToModel (Stage2_ParsedRanking ranking) model)
    as [|p [|q ps]] eqn:Hp; simpl in *.
  - done.
  - done.
  - lia.
Qed.

End AggregatorFacts.

(** ** The claims about the ranking text parser *)



(** C7.  A text without the marker [FINAL RANKING:] is scanned as a
    whole: the parser returns its [Response <uppercase letter>] occurrences
    in document order, each sought after the end of the one before, as
    [FindAllString] does.  They are all the places of the text where such a
    label stands, unless two places overlap (the letter of one being the
    [R] of the next).  The specification's example gives A then C; the
    empty text gives nothing. *)
Theorem ParseRankingFromText_no_marker :
  (forall text : string,
     Contains text marker = false ->
     ParseRankingFromText text = response_occurrences text /\
     (overlap_free text = true -> ParseRankingFromText text = response_places text)) /\
  ParseRankingFromText example_no_marker = ["Response A"; "Response C"] /\
  ParseRankingFromText "" = [].
Proof.
  split_and!; [|by vm_compute..].
  intros text Hc.
  assert (Hparse : ParseRankingFromText text = response_occurrences text).
  { unfold ParseRankingFromText. fold marker. rewrite Hc.
    apply FindAllString_responsePattern. }
  split; [done|]. intros Hfree. rewrite Hparse.
  by apply (response_occurrences_places_bounded (String.length text)).
Qed.

Lemma ParseRankingFromText_no_marker_witness :
  Contains example_no_marker marker = false /\
  overlap_free example_no_marker = true /\
  ParseRankingFromText example_no_marker = response_occurrences example_no_marker /\
  ParseRankingFromText example_no_marker = response_places example_no_marker.
Proof.
  assert (Hc : Contains example_no_marker marker = false) by (by vm_compute).
  assert (Hfree : overlap_free example_no_marker = true) by (by vm_compute).
  destruct (proj1 ParseRankingFromText_no_marker example_no_marker Hc)
    as [Hocc Hplaces].
  split_and!; [done..|]. by apply Hplaces.
Defined.

(** Overlapping places: [FindAllString] reports the first and goes on
    after its end, so the second is not reported. *)
Example ParseRankingFromText_overlap :
  ParseRankingFromText example_overlap = ["Response R"] /\
  response_places example_overlap = ["Response R"; "Response A"].
Proof. by vm_compute. Qed.

(** X1.  Every string the parser returns is a label, [Response] followed
    by one uppercase letter, on every path. *)
Theorem ParseRankingFromText_labels (text : string) :
  Forall is_label (ParseRankingFromText text).
Proof.
  destruct (Contains text marker) eqn:Hc.
  - rewrite ParseRankingFromText_marker by done. cbv zeta.
    destruct (numbered_matches_entries (rankingSection text))
      as (entries & Htext & Hwf & Hlab).
    destruct (0 <? length (FindAllString numberedPattern (rankingSection text)))%nat.
    + rewrite Hlab. clear Htext Hlab.
      induction Hwf as [|[[number blanks] letter] entries (_ & _ & _ & Hu) _ IH];
        constructor; [by exists letter|done].
    + rewrite !FindAllString_responsePattern.
      destruct (0 <? length (response_occurrences (rankingSection text)))%nat;
        apply response_occurrences_labels.
  - unfold ParseRankingFromText. fold marker. rewrite Hc.
    rewrite FindAllString_responsePattern. apply response_occurrences_labels.
Qed.

(** C1, as the specification states it, fails: here the marker is
    present, nothing after it parses (no numbered entry and no label starts
    anywhere in the ranking section), and the parser still returns the
    label that stands before the marker. *)
Lemma ParseRankingFromText_marker_fallback_counterexample :
  Contains example_label_before_marker marker = true /\
  (forall i, numbered_at (drop i (rankingSection example_label_before_marker)) = None) /\
  (forall i, response_at (drop i (rankingSection example_label_before_marker)) = None) /\
  ParseRankingFromText example_label_before_marker = ["Response A"].
Proof.
  split_and!; [by vm_compute| | |by vm_compute].
  - apply FindAllString_numberedPattern_nil. by vm_compute.
  - apply FindAllString_responsePattern_nil. by vm_compute.
Qed.

(** C1, amended.  When the marker is present and neither a numbered
    entry nor a [Response <letter>] label starts anywhere in its ranking
    section, the parser goes on to its last fallback and returns the
    [Response <letter>] occurrences of the whole raw text; it returns
    nothing only if the whole text has none. *)
Theorem ParseRankingFromText_marker_nothing_parses (text : string) :
  Contains text marker = true ->
  (forall i, numbered_at (drop i (rankingSection text)) = None) ->
  (forall i, response_at (drop i (rankingSection text)) = None) ->
  ParseRankingFromText text = response_occurrences text /\
  (ParseRankingFromText text = [] <-> forall i, response_at (drop i text) = None).
Proof.
  intros Hc Hnum%FindAllString_numberedPattern_nil
    Hresp%FindAllString_responsePattern_nil.
  assert (Hparse : ParseRankingFromText text = response_occurrences text).
  { rewrite ParseRankingFromText_marker by done. cbv zeta.
    rewrite Hnum, Hresp. apply FindAllString_responsePattern. }
  split; [done|].
  rewrite Hparse, <- FindAllString_responsePattern.
  apply FindAllString_responsePattern_nil.
Qed.

Lemma ParseRankingFromText_marker_nothing_parses_witness :
  Contains example_nothing_to_rank marker = true /\
  ParseRankingFromText example_nothing_to_rank
  = response_occurrences example_nothing_to_rank /\
  ParseRankingFromText example_nothing_to_rank = [].
Proof.
  assert (Hc : Contains example_nothing_to_rank marker = true) by (by vm_compute).
  assert (Hnum : forall i,
            numbered_at (drop i (rankingSection example_nothing_to_rank)) = None).
  { apply FindAllString_numberedPattern_nil. by vm_compute. }
  assert (Hresp : forall i,
            response_at (drop i (rankingSection example_nothing_to_rank)) = None).
  { apply FindAllString_responsePattern_nil. by vm_compute. }
  destruct (ParseRankingFromText_marker_nothing_parses _ Hc Hnum Hresp)
    as [Hparse Hnil].
  split_and!; [done..|]. rewrite Hparse. by vm_compute.
Defined.

(** ** The claims about the aggregator *)

Section AggregatorClaims.
Context `{GoRuntime}.

(** C5, amended.  For every entry of the aggregator's output, the
    support count is the number of positions given to its model (one for
    each occurrence of one of its labels in a parsed order) and the average
    rank is the sum of these 1-based positions divided by their number.
    When no parsed order places the model twice, that number is the number
    of rankers who placed it. *)
Theorem CalculateAggregateRankings_average
    (stage2Results : list Stage2Ranking) (labelToModel : gmap string string)
    (a : AggregateRanking) :
  a ∈ CalculateAggregateRankings stage2Results labelToModel ->
  let positions := placements labelToModel stage2Results (Aggregate_Model a) in
  positions <> [] /\
  RankingsCount a = Z.of_nat (length positions) /\
  AverageRank a = float64_div (float64_of_int (Zsum positions))
                              (float64_of_int (Z.of_nat (length positions))) /\
  ((forall ranking, ranking ∈ stage2Results ->
      length (positions_in labelToModel (Stage2_ParsedRanking ranking)
                (Aggregate_Model a)) <= 1) ->
   length positions = rankers_placing labelToModel stage2Results (Aggregate_Model a)).
Proof.
  intros (model & Hne & ->)%elem_of_CalculateAggregateRankings. simpl.
  split_and!; [done..|]. apply placements_length_rankers.
Qed.

(** C8.  The output is sorted by ascending average rank (no entry has a
    smaller average rank than an entry before it), its models are exactly
    those to which some parsed order gives a position through a label of
    the label map, and each of them occurs once: a model nobody ranked is
    absent. *)
Theorem CalculateAggregateRankings_sorted_exact
    (stage2Results : list Stage2Ranking) (labelToModel : gmap string string) :
  let aggregate := CalculateAggregateRankings stage2Results labelToModel in
  (forall (i j : nat) (a b : AggregateRanking),
     i < j -> aggregate !! i = Some a -> aggregate !! j = Some b ->
     float64_lt (AverageRank b) (AverageRank a) = false) /\
  (forall model : string,
     model ∈ map Aggregate_Model aggregate <->
     exists ranking label,
       ranking ∈ stage2Results /\ label ∈ Stage2_ParsedRanking ranking /\
       labelToModel !! label = Some model) /\
  NoDup (map Aggregate_Model aggregate).
Proof.
  cbv zeta. split_and!.
  - intros i j a b Hij Hi Hj.
    exact (StronglySorted_lookup _ _ i j a b
             (CalculateAggregateRankings_StronglySorted _ _) Hij Hi Hj).
  - intros model. rewrite <- placements_nonempty.
    rewrite list_elem_of_In, in_map_iff. split.
    + intros (a & <- & Ha).
      apply list_elem_of_In, elem_of_CalculateAggregateRankings in Ha
        as (model & Hne & ->). done.
    + intros Hne. exists (aggregate_of model (placements labelToModel stage2Results model)).
      split; [done|].
      apply list_elem_of_In, elem_of_CalculateAggregateRankings. by exists model.
  - apply NoDup_CalculateAggregateRankings.
Qed.

End AggregatorClaims.

Lemma CalculateAggregateRankings_average_witness :
  let a := aggregate_of (H := Reference.runtime) "model/a" [1; 3; 2]%Z in
  a ∈ CalculateAggregateRankings example_round_robin example_labels /\
  placements example_labels example_round_robin "model/a" = [1; 3; 2]%Z /\
  RankingsCount a = 3%Z /\
  AverageRank a = Qdiv (inject_Z 6) (inject_Z 3) /\
  rankers_placing example_labels example_round_robin "model/a" = 3.
Proof.
  cbv zeta.
  assert (Hin : aggregate_of (H := Reference.runtime) "model/a" [1; 3; 2]%Z
                ∈ CalculateAggregateRankings example_round_robin example_labels).
  { apply list_elem_of_In. vm_compute. auto. }
  pose proof (CalculateAggregateRankings_average _ _ _ Hin) as (_ & Hcount & Havg & Honce).
  split_and!; [done|by vm_compute|done|done|by vm_compute].
Defined.

(** The example of the specification: every average is 2.0 (6/3) and every
    support count is 3. *)
Example CalculateAggregateRankings_round_robin :
  map (fun a : @AggregateRanking Reference.runtime =>
         (Qeq_bool (AverageRank a) (inject_Z 2), RankingsCount a))
      (CalculateAggregateRankings (H := Reference.runtime)
         example_round_robin example_labels)
  = [(true, 3%Z); (true, 3%Z); (true, 3%Z)].
Proof. by vm_compute. Qed.

(** C5, as the specification states it, fails when a parsed order repeats
    a label: one ranker placed the model, at positions 1 and 2; the support
    count is 2 and the average 3/2, where the claim asks for 1 and 3/1. *)
Lemma CalculateAggregateRankings_repeated_label_counterexample :
  CalculateAggregateRankings (H := Reference.runtime)
    example_repeated_label example_labels
  = [ @mkAggregateRanking Reference.runtime "model/a" (3 # 2)%Q 2%Z ] /\
  rankers_placing example_labels example_repeated_label "model/a" = 1 /\
  placements example_labels example_repeated_label "model/a" = [1; 2]%Z.
Proof. by vm_compute. Qed.

(** ** Facts about the parallel query executor *)

Section ExecutorFacts.
Context `{GoRuntime}.

Lemma query_goroutine_stored (w : World) (seed i : nat) (model : string)
    (messages : list OpenRouterMessage)
    (results : gmap string (option OpenRouterResponse)) :
  query_goroutine w seed i model messages results
  = (<[model := stored w seed i model messages]> results, None).
Proof.
  unfold query_goroutine, stored.
  by destruct (QueryModel w seed i model messages (120 * Second)).
Qed.

(** No goroutine returns an error, so [g.Wait()] returns [nil]. *)
Lemma errgroup_Wait_query (w : World) (seed : nat) (models : list string)
    (messages : list OpenRouterMessage) (order : list nat) :
  errgroup_Wait (imap (fun i model => query_goroutine w seed i model messages) models)
                order ∅
  = (writes w seed models messages order, None).
Proof.
  unfold errgroup_Wait, writes.
  generalize (∅ : gmap string (option OpenRouterResponse)).
  induction order as [|i order IH]; intros results; [done|].
  cbn [foldl]. rewrite list_lookup_imap.
  destruct (models !! i) as [model|]; simpl; [|apply IH].
  rewrite query_goroutine_stored. apply IH.
Qed.

Lemma QueryModelsParallel_writes (w : World) (seed : nat) (models : list string)
    (messages : list OpenRouterMessage) :
  QueryModelsParallel w seed models messages
  = (writes w seed models messages (schedule seed (length models)), None).
Proof. unfold QueryModelsParallel. by rewrite errgroup_Wait_query. Qed.

(** With distinct models, each key is written once, whatever the order. *)
Lemma writes_lookup (w : World) (seed : nat) (models : list string)
    (messages : list OpenRouterMessage) (order : list nat) (i : nat) (model : string) :
  NoDup models -> models !! i = Some model ->
  writes w seed models messages order !! model
  = if decide (i ∈ order) then Some (stored w seed i model messages) else None.
Proof.
  intros Hnodup Hi. unfold writes.
  induction order as [|j order IH] using rev_ind.
  - cbn [foldl]. rewrite lookup_empty. by rewrite decide_False by apply not_elem_of_nil.
  - rewrite foldl_app. cbn [foldl].
    destruct (decide (j = i)) as [->|Hne].
    + rewrite Hi, lookup_insert_eq.
      rewrite decide_True; [done|]. apply elem_of_app. right. by left.
    + assert (Hiff : i ∈ (order ++ [j])%list <-> i ∈ order).
      { rewrite elem_of_app, list_elem_of_singleton.
        split; [intros [?|?]; [done|congruence]|by left]. }
      destruct (models !! j) as [model'|] eqn:Hj.
      * rewrite lookup_insert_ne.
        -- rewrite IH. by apply decide_ext.
        -- intros ->. apply Hne. by eapply NoDup_lookup.
      * rewrite IH. by apply decide_ext.
Qed.

Lemma writes_lookup_None (w : World) (seed : nat) (models : list string)
    (messages : list OpenRouterMessage) (order : list nat) (key : string) :
  key ∉ models -> writes w seed models messages order !! key = None.
Proof.
  intros Hnotin. unfold writes.
  induction order as [|j order IH] using rev_ind; [done|].
  rewrite foldl_app. cbn [foldl].
  destruct (models !! j) as [model'|] eqn:Hj; [|done].
  rewrite lookup_insert_ne; [done|].
  intros ->. apply Hnotin, list_elem_of_lookup. by exists j.
Qed.

(** Every value written is the outcome of one of the calls. *)
Lemma writes_values (w : World) (seed : nat) (models : list string)
    (messages : list OpenRouterMessage) (order : list nat)
    (key : string) (value : option OpenRouterResponse) :
  writes w seed models messages order !! key = Some value ->
  exists i, models !! i = Some key /\ value = stored w seed i key messages.
Proof.
  unfold writes.
  induction order as [|j order IH] using rev_ind; [done|].
  rewrite foldl_app. cbn [foldl].
  destruct (models !! j) as [model'|] eqn:Hj; [|done].
  destruct (decide (model' = key)) as [->|Hne].
  - rewrite lookup_insert_eq. intros [= <-]. by exists j.
  - by rewrite lookup_insert_ne.
Qed.

End ExecutorFacts.

(** ** The claims about the parallel query executor *)

Section ExecutorClaims.
Context `{GoRuntime}.

(** C2, amended.  For distinct models and every order in which the
    goroutines finish, [QueryModelsParallel] returns no error and a map with
    exactly one key for each model queried: a model whose call succeeded
    is mapped to its response, a model whose call failed is mapped to
    [nil]. *)
Theorem QueryModelsParallel_entries (w : World) (seed : nat)
    (models : list string) (messages : list OpenRouterMessage) :
  NoDup models ->
  let '(results, err) := QueryModelsParallel w seed models messages in
  err = None /\
  (forall (i : nat) (model : string),
     models !! i = Some model ->
     results !! model =
     Some (match QueryModel w seed i model messages (120 * Second) with
           | inl response => Some response
           | inr _ => None
           end)) /\
  (forall key : string, key ∉ models -> results !! key = None).
Proof.
  intros Hnodup. rewrite QueryModelsParallel_writes. split_and!; [done| |].
  - intros i model Hi. rewrite (writes_lookup _ _ _ _ _ i) by done.
    rewrite decide_True; [done|].
    rewrite schedule_Permutation. apply elem_of_seq.
    apply lookup_lt_Some in Hi. lia.
  - intros key Hkey. by apply writes_lookup_None.
Qed.

End ExecutorClaims.

Lemma QueryModelsParallel_entries_witness :
  NoDup (CouncilModels example_one_failure) /\
  let '(results, err) :=
    QueryModelsParallel (H := Reference.runtime) example_one_failure 1
      (CouncilModels example_one_failure) [] in
  err = None /\
  results !! "model/success"
  = Some (Some {| Response_Content := "Success"; ReasoningDetails := None |}) /\
  results !! "model/fail" = Some None /\
  results !! "model/other" = None.
Proof.
  assert (Hnodup : NoDup (CouncilModels example_one_failure)).
  { apply NoDup_ListNoDup. repeat constructor; simpl; intuition congruence. }
  split; [done|].
  pose proof (QueryModelsParallel_entries (H := Reference.runtime)
                example_one_failure 1 _ [] Hnodup) as Hentries.
  destruct (QueryModelsParallel _ _ _ _) as [results err].
  destruct Hentries as (Herr & Hin & Hout).
  split_and!; [done| | |].
  - exact (Hin 0 "model/success" eq_refl).
  - exact (Hin 1 "model/fail" eq_refl).
  - apply Hout. simpl. rewrite !elem_of_cons, elem_of_nil.
    intros [?|[?|?]]; done.
Defined.

(** C2, as the specification states it, fails: the model whose call
    failed has a key in the map (with a [nil] response), so the map is not
    made of the successful models only. *)
Lemma QueryModelsParallel_failed_key_counterexample :
  QueryModel example_one_failure 1 1 "model/fail" [] (120 * Second)
  = inr (errorString "API returned status 500: Error") /\
  (QueryModelsParallel (H := Reference.runtime) example_one_failure 1
     (CouncilModels example_one_failure) []).1 !! "model/fail" = Some None /\
  size (QueryModelsParallel (H := Reference.runtime) example_one_failure 1
          (CouncilModels example_one_failure) []).1 = 2.
Proof. by vm_compute. Qed.

(** ** Facts about the stages *)

Section CouncilFacts.
Context `{GoRuntime}.

(** The loop that keeps the non-nil responses of a stage. *)
Lemma flat_map_nil {A B : Type} (f : A -> list B) (l : list A) :
  (forall x, x ∈ l -> f x = []) -> flat_map f l = [].
Proof.
  induction l as [|x l IH]; intros Hall; [done|]. simpl.
  rewrite (Hall x) by left. apply IH. intros y Hy. apply Hall. by right.
Qed.

Lemma Stage1CollectResponses_error (w : World) (userQuery : string) :
  (Stage1CollectResponses w userQuery).2 = None.
Proof. unfold Stage1CollectResponses. by rewrite QueryModelsParallel_writes. Qed.

Lemma Stage2CollectRankings_error_labels (w : World) (userQuery : string)
    (stage1Results : list Stage1Response) :
  (Stage2CollectRankings w userQuery stage1Results).2 = None /\
  (Stage2CollectRankings w userQuery stage1Results).1.2 = assign_labels stage1Results.
Proof. unfold Stage2CollectRankings. by rewrite QueryModelsParallel_writes. Qed.

(** When every call of a stage fails, the stage keeps nothing. *)
Lemma kept_responses_all_failed {R : Type} (w : World) (seed rangeSeed : nat)
    (messages : list OpenRouterMessage) (order : list nat)
    (keep : string -> OpenRouterResponse -> R) :
  (forall i model,
     CouncilModels w !! i = Some model ->
     exists e, QueryModel w seed i model messages (120 * Second) = inr e) ->
  flat_map (fun '(model, response) =>
              match response with
              | Some r => [keep model r]
              | None => []
              end)
           (range rangeSeed (writes w seed (CouncilModels w) messages order))
  = [].
Proof.
  intros Hfail. apply flat_map_nil. intros [model response] Hin.
  rewrite range_Permutation in Hin.
  apply elem_of_map_to_list, writes_values in Hin as (i & Hi & ->).
  destruct (Hfail i model Hi) as [e He]. unfold stored. by rewrite He.
Qed.

Lemma Stage1CollectResponses_all_failed (w : World) (userQuery : string) :
  (forall i model,
     CouncilModels w !! i = Some model ->
     exists e, QueryModel w 1 i model [ {| Role := "user"; Content := userQuery |} ]
                 (120 * Second) = inr e) ->
  Stage1CollectResponses w userQuery = ([], None).
Proof.
  intros Hfail. unfold Stage1CollectResponses.
  rewrite QueryModelsParallel_writes. f_equal.
  by apply (kept_responses_all_failed w 1 1).
Qed.

Lemma CalculateAggregateRankings_nil (labelToModel : gmap string string) :
  CalculateAggregateRankings [] labelToModel = [].
Proof.
  unfold CalculateAggregateRankings.
  apply Permutation_nil_r. rewrite sort_Slice_Permutation.
  unfold collect_positions. simpl.
  assert (Hrange : range 3 (∅ : gmap string (list Z)) = []).
  { apply Permutation_nil_r. by rewrite range_Permutation, map_to_list_empty. }
  by rewrite Hrange.
Qed.

(** [RunFullCouncil] once Stage 1 has returned: the two branches that wrap
    an error of [QueryModelsParallel] are never taken. *)
Lemma RunFullCouncil_unfold (w : World) (userQuery : string) :
  RunFullCouncil w userQuery =
  let stage1Results := (Stage1CollectResponses w userQuery).1 in
  let stage2Results := (Stage2CollectRankings w userQuery stage1Results).1.1 in
  if (length stage1Results =? 0)%nat then
    ([], [], Stage3Response_zero, Metadata_zero,
     Some (errorString "all council models failed to respond"))
  else
    match Stage3SynthesizeFinal w userQuery stage1Results stage2Results with
    | inr e =>
        ([], [], Stage3Response_zero, Metadata_zero,
         Some (wrapError "stage 3 failed: " e))
    | inl stage3Result =>
        (stage1Results, stage2Results, stage3Result,
         {| LabelToModel := assign_labels stage1Results;
            AggregateRankings :=
              CalculateAggregateRankings stage2Results (assign_labels stage1Results) |},
         None)
    end.
Proof.
  unfold RunFullCouncil.
  pose proof (Stage1CollectResponses_error w userQuery) as Herr1.
  destruct (Stage1CollectResponses w userQuery) as [stage1Results err1].
  simpl in Herr1. subst err1. cbn [fst].
  destruct (length stage1Results =? 0)%nat; [done|].
  pose proof (Stage2CollectRankings_error_labels w userQuery stage1Results)
    as [Herr2 Hlabels].
  destruct (Stage2CollectRankings w userQuery stage1Results)
    as [[stage2Results labelToModel] err2].
  simpl in Herr2, Hlabels. subst err2 labelToModel. done.
Qed.

End CouncilFacts.

(** ** The claims about the orchestrator *)

Section CouncilClaims.
Context `{GoRuntime}.

(** C3.  If the call of every council model fails in Stage 1, the
    filtered Stage-1 list is empty and [RunFullCouncil] returns the error
    "all council models failed to respond" with nil Stage-1 and Stage-2
    results and zero values for the Stage-3 result and the metadata. *)
Theorem RunFullCouncil_stage1_total_failure (w : World) (userQuery : string) :
  (forall i model,
     CouncilModels w !! i = Some model ->
     exists e, QueryModel w 1 i model [ {| Role := "user"; Content := userQuery |} ]
                 (120 * Second) = inr e) ->
  (Stage1CollectResponses w userQuery).1 = [] /\
  RunFullCouncil w userQuery
  = ([], [], Stage3Response_zero, Metadata_zero,
     Some (errorString "all council models failed to respond")).
Proof.
  intros Hfail. rewrite RunFullCouncil_unfold.
  by rewrite Stage1CollectResponses_all_failed.
Qed.

(** C4.  If Stage 1 gives at least one result, Stage 2 gives no ranking
    record and the chairman's call succeeds, [RunFullCouncil] succeeds: it
    returns the Stage-1 results, no Stage-2 record, the chairman's answer,
    and metadata whose aggregate-ranking list is empty. *)
Theorem RunFullCouncil_stage2_total_failure (w : World) (userQuery : string)
    (response : OpenRouterResponse) :
  let stage1Results := (Stage1CollectResponses w userQuery).1 in
  stage1Results <> [] ->
  (Stage2CollectRankings w userQuery stage1Results).1.1 = [] ->
  QueryModel w 3 0 (ChairmanModel w) (chairman_messages userQuery stage1Results [])
    ModelQueryTimeout = inl response ->
  RunFullCouncil w userQuery
  = (stage1Results, [],
     {| Stage3_Model := ChairmanModel w; Stage3_Response := Response_Content response |},
     {| LabelToModel := assign_labels stage1Results; AggregateRankings := [] |},
     None).
Proof.
  intros stage1Results Hne Hstage2 Hchairman.
  rewrite RunFullCouncil_unfold. cbv zeta. fold stage1Results.
  destruct stage1Results as [|r rs] eqn:Hs1; [done|]. cbn [length Nat.eqb].
  rewrite Hstage2. unfold Stage3SynthesizeFinal. rewrite Hchairman.
  by rewrite CalculateAggregateRankings_nil.
Qed.

(** C10.  [QueryModelsParallel] never returns an error, nor do
    [Stage1CollectResponses] and [Stage2CollectRankings]; so the only errors
    [RunFullCouncil] returns are "all council models failed to respond" and
    the wrapped failure of the chairman's call. *)
Theorem RunFullCouncil_errors (w : World) (userQuery : string) :
  (forall seed models messages,
     (QueryModelsParallel w seed models messages).2 = None) /\
  (Stage1CollectResponses w userQuery).2 = None /\
  (forall stage1Results,
     (Stage2CollectRankings w userQuery stage1Results).2 = None) /\
  ((RunFullCouncil w userQuery).2 = None \/
   (RunFullCouncil w userQuery).2
   = Some (errorString "all council models failed to respond") \/
   exists messages e,
     QueryModel w 3 0 (ChairmanModel w) messages ModelQueryTimeout = inr e /\
     (RunFullCouncil w userQuery).2
     = Some (wrapError "stage 3 failed: "
               (wrapError "chairman model query failed: " e))).
Proof.
  split_and!.
  - intros seed models messages. by rewrite QueryModelsParallel_writes.
  - apply Stage1CollectResponses_error.
  - intros stage1Results. apply Stage2CollectRankings_error_labels.
  - rewrite RunFullCouncil_unfold. cbv zeta.
    destruct (length _ =? 0)%nat; [by right; left|].
    unfold Stage3SynthesizeFinal.
    destruct (QueryModel w 3 0 (ChairmanModel w) _ ModelQueryTimeout)
      as [response|e] eqn:Hchairman; [by left|].
    right; right. eauto.
Qed.

(** X2.  A failure of Stage 3 is fatal: when Stage 1 gave a result and
    the chairman's call fails, [RunFullCouncil] returns the wrapped error
    and none of the results of the stages. *)
Theorem RunFullCouncil_stage3_failure (w : World) (userQuery : string) (e : error) :
  let stage1Results := (Stage1CollectResponses w userQuery).1 in
  let stage2Results := (Stage2CollectRankings w userQuery stage1Results).1.1 in
  stage1Results <> [] ->
  QueryModel w 3 0 (ChairmanModel w)
    (chairman_messages userQuery stage1Results stage2Results) ModelQueryTimeout
  = inr e ->
  RunFullCouncil w userQuery
  = ([], [], Stage3Response_zero, Metadata_zero,
     Some (wrapError "stage 3 failed: "
             (wrapError "chairman model query failed: " e))).
Proof.
  intros stage1Results stage2Results Hne Hchairman.
  rewrite RunFullCouncil_unfold. cbv zeta.
  fold stage1Results. fold stage2Results.
  destruct stage1Results as [|r rs] eqn:Hs1; [done|]. cbn [length Nat.eqb].
  unfold Stage3SynthesizeFinal. by rewrite Hchairman.
Qed.

End CouncilClaims.

Lemma RunFullCouncil_stage1_total_failure_witness :
  (Stage1CollectResponses (H := Reference.runtime) example_all_fail "What is Go?").1 = [] /\
  RunFullCouncil (H := Reference.runtime) example_all_fail "What is Go?"
  = ([], [], Stage3Response_zero, Metadata_zero,
     Some (errorString "all council models failed to respond")).
Proof.
  apply (RunFullCouncil_stage1_total_failure (H := Reference.runtime)
           example_all_fail "What is Go?").
  intros i model _. by eexists.
Defined.

Lemma RunFullCouncil_stage2_total_failure_witness :
  let stage1Results :=
    (Stage1CollectResponses (H := Reference.runtime) example_rankers_fail
       "What is Go?").1 in
  stage1Results
  = [ {| Stage1_Model := "model/a"; Stage1_Response := "answer of model/a" |};
      {| Stage1_Model := "model/b"; Stage1_Response := "answer of model/b" |} ] /\
  RunFullCouncil (H := Reference.runtime) example_rankers_fail "What is Go?"
  = (stage1Results, [],
     {| Stage3_Model := "model/chairman"; Stage3_Response := "final answer" |},
     {| LabelToModel := assign_labels stage1Results; AggregateRankings := [] |},
     None).
Proof.
  cbv zeta.
  assert (Hstage1 :
            (Stage1CollectResponses (H := Reference.runtime) example_rankers_fail
               "What is Go?").1
            = [ {| Stage1_Model := "model/a"; Stage1_Response := "answer of model/a" |};
                {| Stage1_Model := "model/b"; Stage1_Response := "answer of model/b" |} ])
    by (by vm_compute).
  split; [done|].
  apply (RunFullCouncil_stage2_total_failure (H := Reference.runtime)
           example_rankers_fail "What is Go?"
           {| Response_Content := "final answer"; ReasoningDetails := None |}).
  - by rewrite Hstage1.
  - rewrite Hstage1. by vm_compute.
  - reflexivity.
Defined.

Lemma RunFullCouncil_stage3_failure_witness :
  RunFullCouncil (H := Reference.runtime) example_chairman_fails "What is Go?"
  = ([], [], Stage3Response_zero, Metadata_zero,
     Some (wrapError "stage 3 failed: "
             (wrapError "chairman model query failed: "
                (errorString "API returned status 500: Error")))).
Proof.
  apply (RunFullCouncil_stage3_failure (H := Reference.runtime)
           example_chairman_fails "What is Go?").
  - by vm_compute.
  - reflexivity.
Defined.

(** The end-to-end example of the specification, on the reference
    runtime. *)
Example RunFullCouncil_end_to_end :
  let '(stage1, stage2, stage3, metadata, err) :=
    RunFullCouncil (H := Reference.runtime) example_all_succeed "What is Go?" in
  map Stage1_Model stage1 = ["model/a"; "model/b"] /\
  map Stage2_ParsedRanking stage2
  = [["Response B"; "Response A"]; ["Response B"; "Response A"]] /\
  map (fun a => (Aggregate_Model a, RankingsCount a)) (AggregateRankings metadata)
  = [("model/b", 2%Z); ("model/a", 2%Z)] /\
  stage3 = {| Stage3_Model := "model/chairman";
              Stage3_Response := "Go is a programming language." |} /\
  err = None.
Proof. by vm_compute. Qed.

(** ** Facts about the labels *)

Section LabelFacts.

Lemma forallb_seq (P : nat -> bool) (n : nat) :
  forallb P (seq 0 n) = true -> forall i, i < n -> P i = true.
Proof.
  intros Hall i Hi. rewrite forallb_forall in Hall.
  apply Hall, in_seq. lia.
Qed.

Lemma check_from_spec (P : Z -> bool) (n : nat) (z : Z) :
  check_from P n z = true ->
  forall i, i < n -> P (z + Z.of_nat i)%Z = true.
Proof.
  revert z. induction n as [|n IH]; intros z Hall i Hi; [lia|].
  simpl in Hall. apply andb_prop in Hall as [Hz Hrest].
  destruct i as [|i].
  - by rewrite Z.add_0_r.
  - replace (z + Z.of_nat (S i))%Z with (z + 1 + Z.of_nat i)%Z by lia.
    apply IH; [done|lia].
Qed.

(** Below the limit a label is the UTF-8 encoding of ['A' + i], and can be
    read back. *)
Lemma decode_label_of (i : nat) :
  i < label_limit -> decode_utf8 (label_of i) = (65 + Z.of_nat i)%Z.
Proof.
  intros Hi. apply Z.eqb_eq. unfold label_of.
  apply (check_from_spec
           (fun z => (decode_utf8 (string_of_rune (rune z)) =? z)%Z)
           label_limit 65); [|done].
  by vm_compute.
Qed.

Lemma label_of_inj (i j : nat) :
  i < label_limit -> j < label_limit -> label_of i = label_of j -> i = j.
Proof.
  intros Hi Hj Heq.
  pose proof (decode_label_of i Hi) as Hdi.
  pose proof (decode_label_of j Hj) as Hdj.
  rewrite Heq in Hdi. lia.
Qed.

Lemma append_inj_r (p a b : string) : p +:+ a = p +:+ b -> a = b.
Proof.
  induction p as [|c p IH]; [done|].
  rewrite !append_String. intros [= Heq]. by apply IH.
Qed.

Lemma labelKey_of_inj (i j : nat) :
  i < label_limit -> j < label_limit -> labelKey_of i = labelKey_of j -> i = j.
Proof.
  intros Hi Hj Heq. apply (label_of_inj i j Hi Hj).
  by apply (append_inj_r "Response ").
Qed.

(** The first 26 labels are the uppercase letters. *)
Lemma labelKey_of_letter (i : nat) :
  i < 26 ->
  labelKey_of i = "Response " +:+ String (ascii_of_nat (65 + i)) "" /\
  upper (ascii_of_nat (65 + i)) = true.
Proof.
  intros Hi.
  assert (Hcheck : (String.eqb (labelKey_of i)
                      ("Response " +:+ String (ascii_of_nat (65 + i)) "")
                    && upper (ascii_of_nat (65 + i))) = true).
  { revert i Hi.
    apply (forallb_seq (fun i => String.eqb (labelKey_of i)
                                   ("Response " +:+ String (ascii_of_nat (65 + i)) "")
                                 && upper (ascii_of_nat (65 + i)))).
    by vm_compute. }
  apply andb_prop in Hcheck as [Heq Hu]. by apply String.eqb_eq in Heq.
Qed.

Lemma assign_labels_snoc (stage1Results : list Stage1Response) (result : Stage1Response) :
  assign_labels (stage1Results ++ [result])
  = <[labelKey_of (length stage1Results) := Stage1_Model result]>
      (assign_labels stage1Results).
Proof.
  unfold assign_labels, indexed. rewrite imap_app, foldl_app. simpl.
  by rewrite Nat.add_0_r.
Qed.

(** Every key of the label map is the label of a result, with its model. *)
Lemma assign_labels_lookup_inv (stage1Results : list Stage1Response)
    (label model : string) :
  assign_labels stage1Results !! label = Some model ->
  exists i result,
    stage1Results !! i = Some result /\ label = labelKey_of i /\
    model = Stage1_Model result.
Proof.
  induction stage1Results as [|result results IH] using rev_ind; [done|].
  rewrite assign_labels_snoc.
  destruct (decide (labelKey_of (length results) = label)) as [<-|Hne].
  - rewrite lookup_insert_eq. intros [= <-].
    exists (length results), result. split_and!; [|done..].
    by rewrite lookup_app_r, Nat.sub_diag.
  - rewrite lookup_insert_ne by done. intros Hlook.
    destruct (IH Hlook) as (i & r & Hi & -> & ->).
    exists i, r. split_and!; [|done..].
    by apply lookup_app_l_Some.
Qed.

(** Below the limit, the label of the [i]-th result is mapped to its model. *)
Lemma assign_labels_lookup (stage1Results : list Stage1Response)
    (i : nat) (result : Stage1Response) :
  length stage1Results <= label_limit ->
  stage1Results !! i = Some result ->
  assign_labels stage1Results !! labelKey_of i = Some (Stage1_Model result).
Proof.
  induction stage1Results as [|last results IH] using rev_ind; [done|].
  rewrite length_app. simpl. intros Hlen Hi.
  rewrite assign_labels_snoc.
  destruct (decide (i = length results)) as [->|Hne].
  - rewrite lookup_app_r, Nat.sub_diag in Hi by done. injection Hi as ->.
    by rewrite lookup_insert_eq.
  - assert (Hlt : i < length results).
    { apply lookup_lt_Some in Hi. rewrite length_app in Hi. simpl in Hi. lia. }
    rewrite lookup_app_l in Hi by done.
    rewrite lookup_insert_ne; [apply IH; [lia|done]|].
    intros Heq. apply Hne. symmetry.
    apply labelKey_of_inj; [lia..|done].
Qed.

(** The Stage-3 context lists the results in the order of the list. *)
Lemma stage1Text_entries (stage1Results : list Stage1Response) :
  stage1Text stage1Results
  = foldr (fun result text => stage1_entry result +:+ text) "" stage1Results.
Proof.
  unfold stage1Text.
  assert (Hgen : forall text,
            foldl (fun text result => text +:+ stage1_entry result) text stage1Results
            = text +:+ foldr (fun result text => stage1_entry result +:+ text)
                         "" stage1Results).
  { induction stage1Results as [|result results IH]; intros text; simpl.
    - induction text as [|c text IHt]; [done|]. rewrite append_String. by f_equal.
    - rewrite IH. apply append_assoc. }
  apply Hgen.
Qed.

Lemma append_empty_r (s : string) : s +:+ "" = s.
Proof. induction s as [|a s IH]; [done|]. rewrite append_String. by f_equal. Qed.

(** The text of the anonymized responses lists the results in the order
    of the list, each under the label of its index. *)
Lemma responsesText_from_entries (k : nat -> nat) (text : string)
    (stage1Results : list Stage1Response) :
  foldl (fun text '(i, result) =>
           text +:+ ("Response " +:+ label_of i +:+ ":" +:+ nl
                     +:+ Stage1_Response result +:+ nl +:+ nl))
        text (imap (fun i result => (k i, result)) stage1Results)
  = text +:+ foldr (fun '(i, result) text => shown_response i result +:+ text) ""
               (imap (fun i result => (k i, result)) stage1Results).
Proof.
  revert k text. induction stage1Results as [|r rs IH]; intros k text.
  - simpl. by rewrite append_empty_r.
  - cbn [imap foldl foldr]. rewrite (IH (k ∘ S)).
    unfold shown_response, labelKey_of. by rewrite !append_assoc.
Qed.

Lemma responsesText_entries (stage1Results : list Stage1Response) :
  responsesText stage1Results
  = foldr (fun '(i, result) text => shown_response i result +:+ text) ""
      (indexed stage1Results).
Proof. apply (responsesText_from_entries (fun i => i) ""). Qed.

(** Both prompts hold the text they are given, between two texts of
    their own. *)
Lemma context_cons (piece s inner : string) :
  (exists before after, s = before +:+ inner +:+ after) ->
  exists before after, piece +:+ s = before +:+ inner +:+ after.
Proof.
  intros (before & after & ->). exists (piece +:+ before), after.
  by rewrite append_assoc.
Qed.

Lemma rankingPrompt_context (userQuery responses : string) :
  exists before after, rankingPrompt userQuery responses = before +:+ responses +:+ after.
Proof. unfold rankingPrompt. do 10 apply context_cons. eexists "", _. reflexivity. Qed.

Lemma chairmanPrompt_context (userQuery stage1 stage2 : string) :
  exists before after, chairmanPrompt userQuery stage1 stage2 = before +:+ stage1 +:+ after.
Proof. unfold chairmanPrompt. do 9 apply context_cons. eexists "", _. reflexivity. Qed.

End LabelFacts.

(** ** The claim about the labels *)

Section LabelClaims.
Context `{GoRuntime}.

(** C9, amended.  For a Stage-1 list of at most 55231 results (any list
    of at most 26 results in particular), [Stage2CollectRankings] labels
    the results in the order of the list: the map it returns sends the
    label of index [i], ["Response "] followed by [string(rune('A' + i))],
    to the model of the [i]-th result; every key of the map is such a
    label; labels of different indices differ; and for [i < 26] the label
    is ["Response "] followed by the uppercase letter ['A' + i].  The
    prompt Stage 2 sends to every council model holds the responses in the
    order of the list, each under that same label of its index.  When
    [RunFullCouncil] succeeds, the map of its metadata is the labelling of
    the Stage-1 list it returns, Stage 2 and Stage 3 were run on that same
    list, and the message the chairman is sent holds the entries of the
    list (model, then response) one after the other in the order of the
    list. *)
Theorem Stage2CollectRankings_labels (w : World) (userQuery : string) :
  (forall stage1Results : list Stage1Response,
     length stage1Results <= label_limit ->
     let labelToModel := (Stage2CollectRankings w userQuery stage1Results).1.2 in
     (forall i result,
        stage1Results !! i = Some result ->
        labelToModel !! labelKey_of i = Some (Stage1_Model result)) /\
     (forall label model,
        labelToModel !! label = Some model ->
        exists i result,
          stage1Results !! i = Some result /\ label = labelKey_of i /\
          model = Stage1_Model result) /\
     (forall i j,
        i < length stage1Results -> j < length stage1Results ->
        labelKey_of i = labelKey_of j -> i = j) /\
     (forall i,
        i < 26 ->
        labelKey_of i = "Response " +:+ String (ascii_of_nat (65 + i)) "" /\
        upper (ascii_of_nat (65 + i)) = true)) /\
  (forall stage1Results stage2Results stage3Result metadata,
     RunFullCouncil w userQuery
     = (stage1Results, stage2Results, stage3Result, metadata, None) ->
     LabelToModel metadata = (Stage2CollectRankings w userQuery stage1Results).1.2 /\
     stage2Results = (Stage2CollectRankings w userQuery stage1Results).1.1 /\
     Stage3SynthesizeFinal w userQuery stage1Results stage2Results = inl stage3Result) /\
  (forall stage1Results,
     stage1Text stage1Results
     = foldr (fun result text => stage1_entry result +:+ text) "" stage1Results) /\
  (forall stage1Results : list Stage1Response,
     let responses :=
       foldr (fun '(i, result) text => shown_response i result +:+ text) ""
             (indexed stage1Results) in
     let prompt := rankingPrompt userQuery responses in
     (exists before after, prompt = before +:+ responses +:+ after) /\
     Stage2CollectRankings w userQuery stage1Results
     = let '(results, err) :=
         QueryModelsParallel w 2 (CouncilModels w)
           [ {| Role := "user"; Content := prompt |} ] in
       match err with
       | Some e => ([], ∅, Some (wrapError "failed to query models for rankings: " e))
       | None =>
           (flat_map (fun '(model, response) =>
                        match response with
                        | Some r =>
                            [ {| Stage2_Model := model;
                                 Stage2_Ranking := Response_Content r;
                                 Stage2_ParsedRanking :=
                                   ParseRankingFromText (Response_Content r) |} ]
                        | None => []
                        end)
                     (range 2 results),
            assign_labels stage1Results, None)
       end) /\
  (forall (stage1Results : list Stage1Response) (stage2Results : list Stage2Ranking),
     let context :=
       foldr (fun result text => stage1_entry result +:+ text) "" stage1Results in
     let prompt := chairmanPrompt userQuery context (stage2Text stage2Results) in
     (exists before after, prompt = before +:+ context +:+ after) /\
     Stage3SynthesizeFinal w userQuery stage1Results stage2Results
     = match QueryModel w 3 0 (ChairmanModel w)
               [ {| Role := "user"; Content := prompt |} ] ModelQueryTimeout with
       | inr err => inr (wrapError "chairman model query failed: " err)
       | inl response =>
           inl {| Stage3_Model := ChairmanModel w;
                  Stage3_Response := Response_Content response |}
       end).
Proof.
  split_and!.
  - intros stage1Results Hlen labelToModel. subst labelToModel.
    destruct (Stage2CollectRankings_error_labels w userQuery stage1Results) as [_ ->].
    split_and!.
    + intros i result. by apply assign_labels_lookup.
    + apply assign_labels_lookup_inv.
    + intros i j Hi Hj. apply labelKey_of_inj; lia.
    + apply labelKey_of_letter.
  - intros stage1Results stage2Results stage3Result metadata.
    rewrite RunFullCouncil_unfold. cbv zeta.
    destruct (length _ =? 0)%nat; [done|].
    destruct (Stage3SynthesizeFinal w userQuery _ _) as [stage3|e] eqn:Hstage3; [|done].
    intros [= <- <- <- <-]. simpl. split; [|done].
    by destruct (Stage2CollectRankings_error_labels w userQuery
                   (Stage1CollectResponses w userQuery).1) as [_ ->].
  - apply stage1Text_entries.
  - intros stage1Results. cbv zeta. rewrite <- responsesText_entries.
    split; [apply rankingPrompt_context|]. reflexivity.
  - intros stage1Results stage2Results. cbv zeta. rewrite <- stage1Text_entries.
    split; [apply chairmanPrompt_context|]. reflexivity.
Qed.

End LabelClaims.

Lemma Stage2CollectRankings_labels_witness :
  length example_two_results <= label_limit /\
  let labelToModel :=
    (Stage2CollectRankings (H := Reference.runtime) example_one_failure
       "What is Go?" example_two_results).1.2 in
  labelToModel !! "Response A" = Some "model/a" /\
  labelToModel !! "Response B" = Some "model/b" /\
  responsesText example_two_results
  = "Response A:" +:+ nl +:+ "Response from model A" +:+ nl +:+ nl
    +:+ "Response B:" +:+ nl +:+ "Response from model B" +:+ nl +:+ nl /\
  Stage3SynthesizeFinal example_one_failure "What is Go?" example_two_results []
  = match QueryModel example_one_failure 3 0 "model/chairman"
            [ {| Role := "user";
                 Content :=
                   chairmanPrompt "What is Go?"
                     ("Model: model/a" +:+ nl +:+ "Response: Response from model A"
                      +:+ nl +:+ nl
                      +:+ "Model: model/b" +:+ nl +:+ "Response: Response from model B"
                      +:+ nl +:+ nl)
                     "" |} ] ModelQueryTimeout with
    | inr err => inr (wrapError "chairman model query failed: " err)
    | inl response =>
        inl {| Stage3_Model := "model/chairman";
               Stage3_Response := Response_Content response |}
    end.
Proof.
  assert (Hlen : length example_two_results <= label_limit)
    by (unfold label_limit; simpl; lia).
  split; [done|]. cbv zeta.
  destruct (Stage2CollectRankings_labels (H := Reference.runtime)
              example_one_failure "What is Go?")
    as (Hlabels & _ & _ & Hstage2 & Hstage3).
  destruct (Hlabels example_two_results Hlen) as (Hlookup & _).
  split_and!.
  - exact (Hlookup 0 _ eq_refl).
  - exact (Hlookup 1 _ eq_refl).
  - by vm_compute.
  - exact (proj2 (Hstage3 example_two_results [])).
Defined.

(** C9, as the specification states it for every list, fails on a long
    list: the results of index 55231 and 55232 get the same label, and the
    map sends it to the model of the second, not to that of the first. *)
Lemma Stage2CollectRankings_labels_counterexample :
  example_long_list !! label_limit
  = Some {| Stage1_Model := "model/x"; Stage1_Response := "" |} /\
  labelKey_of label_limit = labelKey_of (S label_limit) /\
  (Stage2CollectRankings (H := Reference.runtime) example_one_failure
     "What is Go?" example_long_list).1.2 !! labelKey_of label_limit
  = Some "model/y".
Proof.
  split_and!; [by vm_compute..|].
  destruct (Stage2CollectRankings_error_labels (H := Reference.runtime)
              example_one_failure "What is Go?" example_long_list) as [_ ->].
  unfold example_long_list.
  change [?x; ?y] with ([x] ++ [y])%list. rewrite app_assoc, assign_labels_snoc.
  replace (labelKey_of label_limit)
    with (labelKey_of (length (replicate label_limit
                                 {| Stage1_Model := "model/a"; Stage1_Response := "" |}
                               ++ [ {| Stage1_Model := "model/x";
                                       Stage1_Response := "" |} ])%list))
    by (by vm_compute).
  apply lookup_insert_eq.
Qed.

(** * Further properties

    Properties of the same code beyond the claims of the specification,
    and of the title generator, the bills scraper and its cache. *)

(** ** More about the ranking text parser *)

Section MoreParserFacts.

Lemma scan_skip_app (f : string -> option nat) (p s : string) :
  scan f (String.length p) (p +:+ s) = scan f 0 s.
Proof. induction p as [|c p IH]; [done|]. rewrite append_String. apply IH. Qed.

Lemma span_app (p : ascii -> bool) (a b : string) :
  all_bytes p a = true -> span p b = 0 -> span p (a +:+ b) = String.length a.
Proof.
  intros Ha Hb. induction a as [|c a IH]; [done|].
  rewrite append_String. simpl in *. apply andb_prop in Ha as [Hc Ha].
  by rewrite Hc, IH.
Qed.

(** A numbered entry is matched as a whole, whatever follows it. *)
Lemma numbered_at_entry_text (e : entry) (rest : string) :
  entry_wf e ->
  numbered_at (entry_text e +:+ rest) = Some (String.length (entry_text e)).
Proof.
  destruct e as [[number blanks] letter]. intros (Hne & Hnum & Hbl & Hu).
  unfold entry_text, numbered_entry, numbered_at. cbv zeta.
  rewrite !append_assoc.
  rewrite (span_app digit number) by done.
  destruct (String.length number) as [|n] eqn:Hlen; [by destruct number|].
  rewrite <- Hlen, drop_app_length.
  change ("." +:+ ?x) with (String "." x). cbv iota.
  rewrite (Ascii.eqb_refl ".").
  rewrite (span_app space blanks) by done.
  rewrite drop_app_length.
  unfold response_at. rewrite HasPrefix_app.
  change (drop 9 ("Response " +:+ String letter "" +:+ rest)) with (String letter rest).
  cbv iota. rewrite Hu. f_equal.
  change (String "." ?x) with ("." +:+ x).
  rewrite !length_append. simpl. lia.
Qed.

Lemma scan_numbered_no_digit (separator s : string) :
  no_digit separator = true ->
  scan numbered_at 0 (separator +:+ s) = scan numbered_at 0 s.
Proof.
  unfold no_digit. induction separator as [|c separator IH]; [done|].
  rewrite append_String. cbn [all_bytes]. intros [Hc Hsep]%andb_prop.
  cbn [scan].
  assert (Hnone : numbered_at (String c (separator +:+ s)) = None).
  { unfold numbered_at. cbn [span]. by destruct (digit c). }
  rewrite Hnone. by apply IH.
Qed.

Lemma scan_numbered_entry (e : entry) (rest : string) :
  entry_wf e ->
  scan numbered_at 0 (entry_text e +:+ rest) = entry_text e :: scan numbered_at 0 rest.
Proof.
  intros Hwf. pose proof (numbered_at_entry_text e rest Hwf) as Hat.
  destruct (entry_text e) as [|c text] eqn:Htext.
  { destruct e as [[number blanks] letter]. destruct Hwf as (Hne & _).
    unfold entry_text, numbered_entry in Htext. by destruct number. }
  rewrite append_String in *. cbn [scan]. rewrite Hat. cbn [String.length].
  f_equal.
  - cbn [take]. f_equal. apply take_app_length.
  - apply scan_skip_app.
Qed.

(** The numbered matches of a written list are its entries: none is
    missed, none is made up. *)
Lemma scan_numbered_written_list (items : list (string * entry)) (trailer : string) :
  Forall (fun item => no_digit item.1 = true /\ entry_wf item.2) items ->
  no_digit trailer = true ->
  scan numbered_at 0 (written_list items trailer) = map (fun item => entry_text item.2) items.
Proof.
  intros Hitems Htrailer. induction Hitems as [|[separator e] items [Hsep Hwf] _ IH].
  - simpl. apply scan_nil. intros i.
    assert (Hdrop : no_digit (drop i trailer) = true).
    { clear -Htrailer. revert trailer Htrailer. unfold no_digit.
      induction i as [|i IH]; intros [|c s] Hs; try done.
      simpl in *. apply andb_prop in Hs as [_ Hs]. by apply IH. }
    destruct (drop i trailer) as [|c s]; [done|].
    unfold no_digit in Hdrop. simpl in Hdrop. apply andb_prop in Hdrop as [Hc _].
    unfold numbered_at. cbn [span]. by destruct (digit c).
  - cbn [written_list foldr map]. simpl in Hsep, Hwf.
    rewrite scan_numbered_no_digit by done.
    rewrite scan_numbered_entry by done. f_equal. apply IH.
Qed.

Lemma labels_of_entries (entries : list entry) :
  Forall entry_wf entries ->
  flat_map (fun m =>
              if String.eqb (FindString responsePattern m) ""
              then [] else [FindString responsePattern m])
           (map entry_text entries)
  = map entry_label entries.
Proof.
  induction 1 as [|[[number blanks] letter] entries (Hne & Hnum & Hbl & Hu) _ IH]; [done|].
  cbn [map flat_map entry_text].
  rewrite FindString_numbered_entry by done. rewrite IH. reflexivity.
Qed.

Lemma Contains_middle (before sub after : string) :
  Contains (before +:+ sub +:+ after) sub = true.
Proof.
  apply Contains_true. exists (String.length before).
  rewrite drop_app_length. apply HasPrefix_app.
Qed.

Lemma Contains_app_l (before s sub : string) :
  Contains s sub = true -> Contains (before +:+ s) sub = true.
Proof.
  rewrite !Contains_true. intros [i Hi]. exists (String.length before + i).
  revert Hi. induction before as [|c before IH]; [done|].
  rewrite append_String. apply IH.
Qed.

Lemma HasPrefix_take (n : nat) (s sub : string) :
  HasPrefix (take n s) sub = true -> HasPrefix s sub = true.
Proof.
  revert n s. induction sub as [|c sub IH]; intros n s; [done|].
  destruct n as [|n], s as [|a s]; try done.
  cbn [take HasPrefix]. intros [Hc Hsub]%andb_prop. rewrite Hc. simpl. by apply (IH n).
Qed.

(** Before the first occurrence there is none. *)
Lemma Index_take (s sub : string) (k : nat) :
  sub <> "" -> Index s sub = Some k -> Index (take k s) sub = None.
Proof.
  intros Hsub. revert k. induction s as [|c s IH]; intros k; cbn [Index].
  - destruct (HasPrefix "" sub) eqn:Hp; [by destruct sub|done].
  - destruct (HasPrefix (String c s) sub) eqn:Hp.
    + intros [= <-]. cbn [take Index]. by destruct sub.
    + destruct (Index s sub) as [k'|] eqn:Hk; [|done]. intros [= <-].
      cbn [take Index]. rewrite (IH k' eq_refl).
      destruct (HasPrefix (String c (take k' s)) sub) eqn:Hp'; [|done].
      apply (HasPrefix_take (S k') (String c s)) in Hp'. congruence.
Qed.

(** The ranking section of the marker followed by a text without marker
    is that text. *)
Lemma rankingSection_marker_section (section : string) :
  Index section marker = None ->
  Contains (marker +:+ section) marker = true /\
  rankingSection (marker +:+ section) = section.
Proof.
  intros Hnone.
  assert (Hm : Index (marker +:+ section) marker = Some 0).
  { destruct (marker +:+ section) eqn:Ht; cbn [Index];
      rewrite <- Ht, HasPrefix_app; done. }
  split.
  - unfold Contains. rewrite Hm. by apply bool_decide_eq_true.
  - rewrite (rankingSection_first_marker _ 0 Hm). cbv zeta.
    change (0 + String.length marker) with (String.length marker).
    rewrite drop_app_length. by rewrite Hnone.
Qed.

End MoreParserFacts.

(** X3.  When the marker occurs twice and a label stands between its
    first two occurrences, the parser reads the text between them and
    nothing else: it returns what it returns for the marker followed by
    that text alone.  Neither a label before the first marker nor a
    numbered list after the second one has a part in the result. *)
Theorem ParseRankingFromText_between_markers (text : string) (m k : nat) :
  Index text marker = Some m ->
  Index (drop (m + String.length marker) text) marker = Some k ->
  let section := take k (drop (m + String.length marker) text) in
  (exists i, response_at (drop i section) <> None) ->
  rankingSection text = section /\
  ParseRankingFromText text = ParseRankingFromText (marker +:+ section).
Proof.
  intros Hm Hk section [i Hi].
  assert (Hsection : rankingSection text = section).
  { rewrite (rankingSection_first_marker text m Hm). cbv zeta. by rewrite Hk. }
  split; [done|].
  assert (Hc : Contains text marker = true).
  { unfold Contains. rewrite Hm. by apply bool_decide_eq_true. }
  destruct (rankingSection_marker_section section) as [Hc' Hsection'].
  { apply Index_take; done. }
  rewrite !ParseRankingFromText_marker by done. cbv zeta.
  rewrite Hsection, Hsection'.
  destruct (0 <? length (FindAllString numberedPattern section))%nat; [done|].
  assert (Hne : FindAllString responsePattern section <> []).
  { intros Hnil. apply Hi. by apply FindAllString_responsePattern_nil. }
  by destruct (FindAllString responsePattern section).
Qed.

Lemma ParseRankingFromText_between_markers_witness :
  Index example_two_lists marker = Some 20 /\
  Index (drop (20 + String.length marker) example_two_lists) marker = Some 15 /\
  ParseRankingFromText example_two_lists = ["Response B"] /\
  response_occurrences example_two_lists = ["Response C"; "Response B"; "Response A"].
Proof.
  assert (Hm : Index example_two_lists marker = Some 20) by (by vm_compute).
  assert (Hk : Index (drop (20 + String.length marker) example_two_lists) marker = Some 15)
    by (by vm_compute).
  split_and!; [done..| |by vm_compute].
  destruct (ParseRankingFromText_between_markers example_two_lists 20 15 Hm Hk)
    as [_ Hparse].
  { exists 4. by vm_compute. }
  rewrite Hparse. by vm_compute.
Defined.

(** X4.  The path between the numbered list and the scan of the whole
    text: when the marker is present, no numbered entry starts anywhere in
    the ranking section and a label stands somewhere in it, the parser
    returns the [Response <letter>] occurrences of the ranking section
    alone; the labels written before the marker are left out. *)
Theorem ParseRankingFromText_unnumbered_section (text : string) :
  Contains text marker = true ->
  (forall i, numbered_at (drop i (rankingSection text)) = None) ->
  (exists i, response_at (drop i (rankingSection text)) <> None) ->
  ParseRankingFromText text = response_occurrences (rankingSection text) /\
  ParseRankingFromText text <> [].
Proof.
  intros Hc Hnum%FindAllString_numberedPattern_nil [i Hi].
  assert (Hne : response_occurrences (rankingSection text) <> []).
  { rewrite <- FindAllString_responsePattern. intros Hnil. apply Hi.
    by apply FindAllString_responsePattern_nil. }
  rewrite ParseRankingFromText_marker by done. cbv zeta.
  rewrite Hnum, FindAllString_responsePattern. cbn [length Nat.ltb Nat.leb].
  by destruct (response_occurrences (rankingSection text)).
Qed.

Lemma ParseRankingFromText_unnumbered_section_witness :
  Contains example_unnumbered marker = true /\
  response_at (drop 1 (rankingSection example_unnumbered)) = Some 10 /\
  ParseRankingFromText example_unnumbered = ["Response B"; "Response A"] /\
  response_occurrences example_unnumbered = ["Response C"; "Response B"; "Response A"].
Proof.
  assert (Hc : Contains example_unnumbered marker = true) by (by vm_compute).
  assert (Hat : response_at (drop 1 (rankingSection example_unnumbered)) = Some 10)
    by (by vm_compute).
  assert (Hnum : forall i, numbered_at (drop i (rankingSection example_unnumbered)) = None).
  { apply FindAllString_numberedPattern_nil. by vm_compute. }
  destruct (ParseRankingFromText_unnumbered_section example_unnumbered Hc Hnum)
    as [Hparse _].
  { exists 1. by rewrite Hat. }
  split_and!; [done..| |by vm_compute].
  rewrite Hparse. by vm_compute.
Defined.

(** X5.  An answer in the format the ranking prompt asks for is read as
    written: when the ranking section is a list of numbered entries
    (number, period, blanks, label), each after a separator without digits
    and followed by text without digits, the parser returns the labels of
    the entries, all of them and in the order of the list. *)
Theorem ParseRankingFromText_written_list (text : string)
    (items : list (string * entry)) (trailer : string) :
  Contains text marker = true ->
  rankingSection text = written_list items trailer ->
  items <> [] ->
  Forall (fun item => no_digit item.1 = true /\ entry_wf item.2) items ->
  no_digit trailer = true ->
  ParseRankingFromText text = map (fun item => entry_label item.2) items.
Proof.
  intros Hc Hsection Hne Hitems Htrailer.
  rewrite ParseRankingFromText_marker by done. cbv zeta.
  rewrite FindAllString_numberedPattern, Hsection.
  rewrite scan_numbered_written_list by done.
  destruct items as [|item items]; [done|]. cbn [map length Nat.ltb Nat.leb].
  change (entry_text item.2 :: map (fun item0 => entry_text item0.2) items)
    with (map (fun item0 : string * entry => entry_text item0.2) (item :: items)).
  rewrite <- (map_map snd entry_text), <- (map_map snd entry_label).
  apply labels_of_entries.
  apply Forall_forall. intros e Hin.
  apply list_elem_of_In, in_map_iff in Hin as (it & <- & Hin).
  rewrite Forall_forall in Hitems. by apply Hitems, list_elem_of_In.
Qed.

Lemma ParseRankingFromText_written_list_witness :
  Contains example_numbered marker = true /\
  rankingSection example_numbered = written_list example_items "" /\
  ParseRankingFromText example_numbered = ["Response B"; "Response A"; "Response C"].
Proof.
  assert (Hc : Contains example_numbered marker = true) by (by vm_compute).
  assert (Hs : rankingSection example_numbered = written_list example_items "")
    by (by vm_compute).
  split_and!; [done..|].
  apply (ParseRankingFromText_written_list example_numbered example_items "" Hc Hs).
  - done.
  - unfold example_items. repeat (constructor; [by vm_compute|]). constructor.
  - done.
Defined.

(** ** More about the aggregator *)

Section MoreAggregatorFacts.
Context `{GoRuntime}.

Lemma Zsum_Permutation (xs ys : list Z) : xs ≡ₚ ys -> Zsum xs = Zsum ys.
Proof. unfold Zsum. induction 1; simpl; lia. Qed.

Lemma placements_Permutation (labelToModel : gmap string string)
    (stage2Results stage2Results' : list Stage2Ranking) (model : string) :
  stage2Results ≡ₚ stage2Results' ->
  placements labelToModel stage2Results model
  ≡ₚ placements labelToModel stage2Results' model.
Proof. intros Hperm. unfold placements. by apply Permutation_flat_map. Qed.

Lemma aggregate_of_Permutation (model : string) (xs ys : list Z) :
  xs ≡ₚ ys -> aggregate_of model xs = aggregate_of model ys.
Proof.
  intros Hperm. unfold aggregate_of.
  by rewrite (Zsum_Permutation _ _ Hperm), (Permutation_length Hperm).
Qed.

Lemma NoDup_map_inv_list {A B : Type} (f : A -> B) (l : list A) :
  NoDup (map f l) -> NoDup l.
Proof.
  induction l as [|a l IH]; simpl; [constructor|].
  intros [Hnotin Hnodup]%NoDup_cons. apply NoDup_cons. split; [|by apply IH].
  intros Hin. apply Hnotin. apply list_elem_of_In, in_map, list_elem_of_In, Hin.
Qed.

Lemma Zsum_RankingsCount_average_positions (entries : list (string * list Z)) :
  Zsum (map RankingsCount (average_positions entries))
  = Zsum (map (fun e => Z.of_nat (length e.2)) entries).
Proof.
  induction entries as [|[model positions] entries IH]; [done|].
  cbn [average_positions flat_map map]. rewrite map_app.
  destruct positions as [|p ps]; simpl; simpl in IH;
    unfold average_positions in *; rewrite IH; unfold Zsum; simpl; lia.
Qed.

Lemma total_positions_insert (modelPositions : gmap string (list Z))
    (model : string) (positions : list Z) :
  total_positions (<[model := positions]> modelPositions)
  = (total_positions modelPositions
     - Z.of_nat (length (default [] (modelPositions !! model)))
     + Z.of_nat (length positions))%Z.
Proof.
  unfold total_positions. destruct (modelPositions !! model) as [old|] eqn:Hlook; simpl.
  - rewrite <- (insert_delete_id modelPositions model old) at 2 by done.
    rewrite <- (insert_delete_eq modelPositions).
    rewrite !(Zsum_Permutation _ _
                (Permutation_map _ (map_to_list_insert _ _ _ (lookup_delete_eq _ _)))).
    unfold Zsum. simpl. lia.
  - rewrite (Zsum_Permutation _ _ (Permutation_map _ (map_to_list_insert _ _ _ Hlook))).
    unfold Zsum. simpl. lia.
Qed.

(** One round of the inner loop adds one position when the label is
    known, none otherwise. *)
Lemma total_positions_record_position (labelToModel : gmap string string)
    (modelPositions : gmap string (list Z)) (entry : nat * string) :
  total_positions (record_position labelToModel modelPositions entry)
  = (total_positions modelPositions
     + if decide (is_Some (labelToModel !! entry.2)) then 1 else 0)%Z.
Proof.
  destruct entry as [position label]. unfold record_position. simpl.
  destruct (labelToModel !! label) as [modelName|].
  - rewrite decide_True by eauto. rewrite total_positions_insert, length_app.
    cbn [length]. lia.
  - rewrite decide_False by (by intros [? ?]). lia.
Qed.

Lemma total_positions_foldl (labelToModel : gmap string string)
    (parsed : list string) (start : nat) (modelPositions : gmap string (list Z)) :
  total_positions (foldl (record_position labelToModel) modelPositions
                         (imap (fun i label => (start + i, label)) parsed))
  = (total_positions modelPositions
     + Z.of_nat (length (filter (fun label => is_Some (labelToModel !! label)) parsed)))%Z.
Proof.
  revert start modelPositions.
  induction parsed as [|label parsed IH]; intros start mp; [simpl; lia|].
  cbn [imap foldl].
  rewrite (imap_ext _ (fun i label => (S start + i, label)))
    by (intros; simpl; f_equal; lia).
  rewrite IH, total_positions_record_position, filter_cons. simpl.
  destruct (decide (is_Some (labelToModel !! label))); simpl; lia.
Qed.

Lemma total_positions_collect (stage2Results : list Stage2Ranking)
    (labelToModel : gmap string string) :
  total_positions (collect_positions stage2Results labelToModel)
  = Z.of_nat (mapped_occurrences labelToModel stage2Results).
Proof.
  unfold collect_positions, mapped_occurrences.
  assert (Hgen : forall mp,
            total_positions
              (foldl (fun modelPositions ranking =>
                        foldl (record_position labelToModel) modelPositions
                              (indexed (Stage2_ParsedRanking ranking)))
                     mp stage2Results)
            = (total_positions mp
               + Z.of_nat (length (filter (fun label => is_Some (labelToModel !! label))
                                          (flat_map Stage2_ParsedRanking stage2Results))))%Z).
  { induction stage2Results as [|ranking rankings IH]; intros mp; [simpl; lia|].
    cbn [foldl flat_map]. rewrite IH. unfold indexed.
    rewrite (total_positions_foldl _ _ 0), filter_app, length_app. lia. }
  rewrite Hgen. unfold total_positions. by rewrite map_to_list_empty.
Qed.

(** X6.  The aggregate does not depend on the order of the Stage-2
    records (which comes from walking a map): for the same records in
    another order the aggregator returns the same entries, in an order that
    can differ among entries of equal average only. *)
Theorem CalculateAggregateRankings_ranker_order
    (stage2Results stage2Results' : list Stage2Ranking)
    (labelToModel : gmap string string) :
  stage2Results ≡ₚ stage2Results' ->
  CalculateAggregateRankings stage2Results labelToModel
  ≡ₚ CalculateAggregateRankings stage2Results' labelToModel.
Proof.
  intros Hperm. apply NoDup_Permutation.
  - eapply NoDup_map_inv_list, NoDup_CalculateAggregateRankings.
  - eapply NoDup_map_inv_list, NoDup_CalculateAggregateRankings.
  - intros a. rewrite !elem_of_CalculateAggregateRankings.
    pose proof (fun model => placements_Permutation labelToModel _ _ model Hperm)
      as Hplace.
    split; intros (model & Hne & ->); exists model.
    + rewrite <- (aggregate_of_Permutation model _ _ (Hplace model)). split; [|done].
      intros Hnil. apply Hne. apply Permutation_nil_r. by rewrite (Hplace model), Hnil.
    + rewrite (aggregate_of_Permutation model _ _ (Hplace model)). split; [|done].
      intros Hnil. apply Hne. apply Permutation_nil_r. by rewrite <- (Hplace model), Hnil.
Qed.

(** X7.  No vote is lost and none is made up: the support counts of the
    aggregate add up to the number of labels, over all parsed orders, that
    the label map knows (a label it does not know is skipped).  So the
    aggregate has at most that many entries, and at most as many as the
    label map has labels; with an empty label map or no known label it is
    empty. *)
Theorem CalculateAggregateRankings_counts
    (stage2Results : list Stage2Ranking) (labelToModel : gmap string string) :
  let aggregate := CalculateAggregateRankings stage2Results labelToModel in
  Zsum (map RankingsCount aggregate)
  = Z.of_nat (mapped_occurrences labelToModel stage2Results) /\
  length aggregate <= mapped_occurrences labelToModel stage2Results /\
  length aggregate <= size labelToModel.
Proof.
  cbv zeta.
  assert (Htotal : Zsum (map RankingsCount
                           (CalculateAggregateRankings stage2Results labelToModel))
                   = Z.of_nat (mapped_occurrences labelToModel stage2Results)).
  { unfold CalculateAggregateRankings.
    rewrite (Zsum_Permutation _ _ (Permutation_map _ (sort_Slice_Permutation _ _ _))).
    rewrite Zsum_RankingsCount_average_positions.
    rewrite (Zsum_Permutation _ _ (Permutation_map _ (range_Permutation _ _ _))).
    apply total_positions_collect. }
  split_and!; [done| |].
  - assert (Hcount : Forall (fun a => (1 <= RankingsCount a)%Z)
                       (CalculateAggregateRankings stage2Results labelToModel)).
    { apply Forall_forall.
      intros a (model & Hne & ->)%elem_of_CalculateAggregateRankings.
      simpl. destruct (placements labelToModel stage2Results model); [done|].
      simpl. lia. }
    apply Nat2Z.inj_le. rewrite <- Htotal. clear Htotal.
    induction Hcount as [|a aggregate Ha _ IH]; [done|].
    cbn [map length]. unfold Zsum in *. cbn [foldr]. lia.
  - rewrite <- length_map_to_list, <- (length_map snd (map_to_list labelToModel)).
    rewrite <- (length_map Aggregate_Model).
    apply submseteq_length, NoDup_submseteq; [apply NoDup_CalculateAggregateRankings|].
    intros model Hin.
    apply list_elem_of_In, in_map_iff in Hin as (a & <- & Ha).
    apply list_elem_of_In, elem_of_CalculateAggregateRankings in Ha as (model & Hne & ->).
    apply placements_nonempty in Hne as (ranking & label & _ & _ & Hlabel).
    simpl. apply list_elem_of_In, in_map_iff. exists (label, model). split; [done|].
    by apply list_elem_of_In, elem_of_map_to_list.
Qed.

End MoreAggregatorFacts.

Lemma CalculateAggregateRankings_ranker_order_witness :
  example_round_robin ≡ₚ reverse example_round_robin /\
  CalculateAggregateRankings (H := Reference.runtime) example_round_robin example_labels
  ≡ₚ CalculateAggregateRankings (H := Reference.runtime)
       (reverse example_round_robin) example_labels.
Proof.
  assert (Hperm : example_round_robin ≡ₚ reverse example_round_robin)
    by (by rewrite reverse_Permutation).
  split; [done|].
  by apply (CalculateAggregateRankings_ranker_order (H := Reference.runtime)).
Defined.

(** ** More about the parallel query executor *)

Section MoreExecutorFacts.

(** The map written by the goroutines does not depend on their order when
    the models are distinct. *)
Lemma writes_order (w : World) (seed : nat) (models : list string)
    (messages : list OpenRouterMessage) (order order' : list nat) :
  NoDup models -> order ≡ₚ order' ->
  writes w seed models messages order = writes w seed models messages order'.
Proof.
  intros Hnodup Hperm. apply map_eq. intros key.
  destruct (decide (key ∈ models)) as [Hin|Hnotin].
  - apply list_elem_of_lookup in Hin as [i Hi].
    rewrite !(writes_lookup _ _ _ _ _ i) by done.
    apply decide_ext. by rewrite Hperm.
  - by rewrite !writes_lookup_None.
Qed.

(** X8.  For distinct models the result of [QueryModelsParallel] does not
    depend on the order in which the goroutines take the mutex: two
    runtimes give the same map.  (With a model listed twice the last write
    wins, and the order shows.) *)
Theorem QueryModelsParallel_schedule_independent (R1 R2 : GoRuntime)
    (w : World) (seed : nat) (models : list string)
    (messages : list OpenRouterMessage) :
  NoDup models ->
  QueryModelsParallel (H := R1) w seed models messages
  = QueryModelsParallel (H := R2) w seed models messages.
Proof.
  intros Hnodup. rewrite !QueryModelsParallel_writes. f_equal.
  apply writes_order; [done|].
  by rewrite !schedule_Permutation.
Qed.

End MoreExecutorFacts.

Lemma QueryModelsParallel_schedule_independent_witness :
  NoDup (CouncilModels example_one_failure) /\
  schedule (GoRuntime := Reference.runtime) 1 2 = [0; 1] /\
  schedule (GoRuntime := lifo_runtime) 1 2 = [1; 0] /\
  QueryModelsParallel (H := Reference.runtime) example_one_failure 1
    (CouncilModels example_one_failure) []
  = QueryModelsParallel (H := lifo_runtime) example_one_failure 1
      (CouncilModels example_one_failure) [].
Proof.
  assert (Hnodup : NoDup (CouncilModels example_one_failure)).
  { apply NoDup_ListNoDup. repeat constructor; simpl; intuition congruence. }
  split_and!; [done|done|done|].
  by apply QueryModelsParallel_schedule_independent.
Defined.

(** With a model listed twice the order matters: the last write wins. *)
Example QueryModelsParallel_duplicate_models :
  (QueryModelsParallel (H := Reference.runtime) example_same_model_twice 1
     (CouncilModels example_same_model_twice) []).1 !! "model/a" = Some None /\
  (QueryModelsParallel (H := lifo_runtime) example_same_model_twice 1
     (CouncilModels example_same_model_twice) []).1 !! "model/a"
  = Some (Some {| Response_Content := "first"; ReasoningDetails := None |}).
Proof. by vm_compute. Qed.

(** ** More about the stages and the orchestrator *)

Section MoreCouncilFacts.
Context `{GoRuntime}.

(** The loop that keeps the non-nil responses of a stage, read as a set. *)
Lemma elem_of_kept_responses {R : Type} (keep : string -> OpenRouterResponse -> R)
    (rangeSeed : nat) (results : gmap string (option OpenRouterResponse)) (x : R) :
  x ∈ flat_map (fun '(model, response) =>
                  match response with
                  | Some r => [keep model r]
                  | None => []
                  end)
               (range rangeSeed results) <->
  exists model r, results !! model = Some (Some r) /\ x = keep model r.
Proof.
  rewrite list_elem_of_In, in_flat_map. split.
  - intros ([model [r|]] & Hin & Hx); [|done].
    destruct Hx as [<-|[]]. exists model, r. split; [|done].
    apply elem_of_map_to_list. rewrite <- (range_Permutation _ rangeSeed).
    by apply list_elem_of_In.
  - intros (model & r & Hlook & ->). exists (model, Some r). split; [|by left].
    apply list_elem_of_In. rewrite range_Permutation. by apply elem_of_map_to_list.
Qed.

(** It keeps at most one record for a key. *)
Lemma NoDup_kept_responses {R : Type} (keep : string -> OpenRouterResponse -> R)
    (model_of : R -> string) (rangeSeed : nat)
    (results : gmap string (option OpenRouterResponse)) :
  (forall model r, model_of (keep model r) = model) ->
  NoDup (map model_of
           (flat_map (fun '(model, response) =>
                        match response with
                        | Some r => [keep model r]
                        | None => []
                        end)
                     (range rangeSeed results))).
Proof.
  intros Hmodel.
  assert (Hgen : forall entries : list (string * option OpenRouterResponse),
            NoDup (map fst entries) ->
            NoDup (map model_of
                     (flat_map (fun '(model, response) =>
                                  match response with
                                  | Some r => [keep model r]
                                  | None => []
                                  end)
                               entries))).
  { induction entries as [|[model response] entries IH]; simpl; [constructor|].
    intros [Hnotin Hnodup]%NoDup_cons. specialize (IH Hnodup).
    destruct response as [r|]; simpl; [|done].
    apply NoDup_cons. split; [|done]. rewrite Hmodel.
    intros Hin. apply Hnotin.
    apply list_elem_of_In, in_map_iff in Hin as (x & Hx & Hin).
    apply in_flat_map in Hin as ([model' [r'|]] & Hin' & Hkeep); [|done].
    destruct Hkeep as [<-|[]]. rewrite Hmodel in Hx. subst model'.
    apply list_elem_of_In, in_map_iff. by exists (model, Some r'). }
  apply Hgen.
  assert (Hperm : map fst (range rangeSeed results) ≡ₚ map fst (map_to_list results))
    by apply Permutation_map, range_Permutation.
  rewrite Hperm. apply NoDup_fst_map_to_list.
Qed.

Lemma Stage1CollectResponses_kept (w : World) (userQuery : string) :
  (Stage1CollectResponses w userQuery).1
  = flat_map (fun '(model, response) =>
                match response with
                | Some r => [mkStage1Response model (Response_Content r)]
                | None => []
                end)
             (range 1 (writes w 1 (CouncilModels w)
                         [ {| Role := "user"; Content := userQuery |} ]
                         (schedule 1 (length (CouncilModels w))))).
Proof. unfold Stage1CollectResponses. by rewrite QueryModelsParallel_writes. Qed.

Lemma Stage2CollectRankings_kept (w : World) (userQuery : string)
    (stage1Results : list Stage1Response) :
  (Stage2CollectRankings w userQuery stage1Results).1.1
  = flat_map (fun '(model, response) =>
                match response with
                | Some r =>
                    [mkStage2Ranking model (Response_Content r)
                       (ParseRankingFromText (Response_Content r))]
                | None => []
                end)
             (range 2 (writes w 2 (CouncilModels w)
                         [ {| Role := "user";
                              Content := rankingPrompt userQuery
                                           (responsesText stage1Results) |} ]
                         (schedule 2 (length (CouncilModels w))))).
Proof. unfold Stage2CollectRankings. by rewrite QueryModelsParallel_writes. Qed.

(** With distinct council models, the Stage-1 list holds the successful
    calls, and only them. *)
Lemma elem_of_Stage1CollectResponses (w : World) (userQuery model text : string) :
  NoDup (CouncilModels w) ->
  {| Stage1_Model := model; Stage1_Response := text |}
    ∈ (Stage1CollectResponses w userQuery).1 <->
  exists i response,
    CouncilModels w !! i = Some model /\
    QueryModel w 1 i model [ {| Role := "user"; Content := userQuery |} ]
      (120 * Second) = inl response /\
    text = Response_Content response.
Proof.
  intros Hnodup. rewrite Stage1CollectResponses_kept.
  rewrite (elem_of_kept_responses
             (fun model r => mkStage1Response model (Response_Content r))).
  split.
  - intros (model' & r & Hlook & [= -> ->]).
    apply writes_values in Hlook as (i & Hi & Hstored).
    exists i, r. split_and!; [done| |done].
    unfold stored in Hstored. by destruct (QueryModel w 1 i model' _ _); simplify_eq.
  - intros (i & r & Hi & Hcall & ->). exists model, r. split; [|done].
    rewrite (writes_lookup _ _ _ _ _ i) by done.
    rewrite decide_True.
    + unfold stored. by rewrite Hcall.
    + rewrite schedule_Permutation. apply elem_of_seq.
      apply lookup_lt_Some in Hi. lia.
Qed.

Lemma responsesText_from (k : nat -> nat) (text : string)
    (stage1Results stage1Results' : list Stage1Response) :
  map Stage1_Response stage1Results = map Stage1_Response stage1Results' ->
  foldl (fun text '(i, result) =>
           text +:+ ("Response " +:+ label_of i +:+ ":" +:+ nl
                     +:+ Stage1_Response result +:+ nl +:+ nl))
        text (imap (fun i result => (k i, result)) stage1Results)
  = foldl (fun text '(i, result) =>
             text +:+ ("Response " +:+ label_of i +:+ ":" +:+ nl
                       +:+ Stage1_Response result +:+ nl +:+ nl))
          text (imap (fun i result => (k i, result)) stage1Results').
Proof.
  revert stage1Results' k text.
  induction stage1Results as [|r rs IH]; intros [|r' rs'] k text Hmap; try done.
  injection Hmap as Hr Hrs. cbn [imap foldl]. rewrite Hr.
  apply (IH rs' (k ∘ S)), Hrs.
Qed.

(** The text of the anonymized responses is made of the response texts
    alone. *)
Lemma responsesText_responses (stage1Results stage1Results' : list Stage1Response) :
  map Stage1_Response stage1Results = map Stage1_Response stage1Results' ->
  responsesText stage1Results = responsesText stage1Results'.
Proof. apply (responsesText_from (fun i => i)). Qed.

Lemma responsesText_snoc (stage1Results : list Stage1Response) (result : Stage1Response) :
  responsesText (stage1Results ++ [result])
  = responsesText stage1Results +:+ shown_response (length stage1Results) result.
Proof.
  unfold responsesText, indexed. rewrite imap_app, foldl_app. simpl.
  rewrite Nat.add_0_r. unfold shown_response, labelKey_of.
  by rewrite !append_assoc.
Qed.

Lemma responsesText_shown (stage1Results : list Stage1Response)
    (i : nat) (result : Stage1Response) :
  stage1Results !! i = Some result ->
  exists before after,
    responsesText stage1Results = before +:+ shown_response i result +:+ after.
Proof.
  induction stage1Results as [|last results IH] using rev_ind; [done|].
  intros Hi. rewrite responsesText_snoc.
  destruct (decide (i = length results)) as [->|Hne].
  - rewrite lookup_app_r, Nat.sub_diag in Hi by done. injection Hi as ->.
    exists (responsesText results), "". by rewrite append_empty_r.
  - assert (Hlt : i < length results).
    { apply lookup_lt_Some in Hi. rewrite length_app in Hi. simpl in Hi. lia. }
    rewrite lookup_app_l in Hi by done.
    destruct (IH Hi) as (before & after & ->).
    exists before, (after +:+ shown_response (length results) last).
    by rewrite !append_assoc.
Qed.

(** X9.  With distinct council models, the Stage-1 list is made of the
    council models whose call succeeded, each once, with the content of
    its response: a model whose call failed is left out, and nothing else
    is. *)
Theorem Stage1CollectResponses_successful_models (w : World) (userQuery : string) :
  NoDup (CouncilModels w) ->
  let stage1Results := (Stage1CollectResponses w userQuery).1 in
  NoDup (map Stage1_Model stage1Results) /\
  forall model text : string,
    {| Stage1_Model := model; Stage1_Response := text |} ∈ stage1Results <->
    exists i response,
      CouncilModels w !! i = Some model /\
      QueryModel w 1 i model [ {| Role := "user"; Content := userQuery |} ]
        (120 * Second) = inl response /\
      text = Response_Content response.
Proof.
  intros Hnodup. cbv zeta. split.
  - rewrite Stage1CollectResponses_kept. by apply NoDup_kept_responses.
  - intros model text. by apply elem_of_Stage1CollectResponses.
Qed.

(** X10.  Every Stage-2 record is the answer of a council model to the
    ranking prompt: its raw text is the content of a successful call of
    Stage 2 for its model, its parsed order is what the parser reads in
    that text, and no model has two records. *)
Theorem Stage2CollectRankings_records (w : World) (userQuery : string)
    (stage1Results : list Stage1Response) :
  let stage2Results := (Stage2CollectRankings w userQuery stage1Results).1.1 in
  NoDup (map Stage2_Model stage2Results) /\
  Forall (fun record =>
            Stage2_ParsedRanking record = ParseRankingFromText (Stage2_Ranking record) /\
            exists i response,
              CouncilModels w !! i = Some (Stage2_Model record) /\
              QueryModel w 2 i (Stage2_Model record)
                [ {| Role := "user";
                     Content := rankingPrompt userQuery (responsesText stage1Results) |} ]
                (120 * Second) = inl response /\
              Stage2_Ranking record = Response_Content response)
         stage2Results.
Proof.
  cbv zeta. rewrite Stage2CollectRankings_kept. split.
  - by apply NoDup_kept_responses.
  - apply Forall_forall. intros record.
    rewrite (elem_of_kept_responses
               (fun model r => mkStage2Ranking model (Response_Content r)
                                 (ParseRankingFromText (Response_Content r)))).
    intros (model & r & Hlook & ->). simpl. split; [done|].
    apply writes_values in Hlook as (i & Hi & Hstored).
    exists i, r. split_and!; [done| |done].
    unfold stored in Hstored. by destruct (QueryModel w 2 i model _ _); simplify_eq.
Qed.

(** X11.  Stage 2 is anonymous: the ranking prompt, and with it every
    Stage-2 record, depends on the texts of the Stage-1 responses and on
    their order only, not on the models that wrote them. *)
Theorem Stage2CollectRankings_anonymous (w : World) (userQuery : string)
    (stage1Results stage1Results' : list Stage1Response) :
  map Stage1_Response stage1Results = map Stage1_Response stage1Results' ->
  rankingPrompt userQuery (responsesText stage1Results)
  = rankingPrompt userQuery (responsesText stage1Results') /\
  (Stage2CollectRankings w userQuery stage1Results).1.1
  = (Stage2CollectRankings w userQuery stage1Results').1.1.
Proof.
  intros Hresponses. rewrite !Stage2CollectRankings_kept.
  by rewrite (responsesText_responses _ _ Hresponses).
Qed.

(** X12.  The ranking prompt shows every Stage-1 response under its
    label: for the result of index [i] it contains the label of index [i],
    a colon, a line break, the text of the response and two line breaks. *)
Theorem rankingPrompt_shows_responses (userQuery : string)
    (stage1Results : list Stage1Response) (i : nat) (result : Stage1Response) :
  stage1Results !! i = Some result ->
  Contains (rankingPrompt userQuery (responsesText stage1Results))
           (shown_response i result) = true.
Proof.
  intros Hi. destruct (responsesText_shown _ _ _ Hi) as (before & after & ->).
  unfold rankingPrompt. do 10 apply Contains_app_l.
  rewrite !append_assoc. apply Contains_middle.
Qed.

(** X13.  [RunFullCouncil] returns all or nothing.  Without an error the
    Stage-1 list is not empty, the results are those of the three stages
    run one after the other, the Stage-3 result names the chairman model,
    and the metadata are the label map of the Stage-1 list and the
    aggregate of the Stage-2 records under it.  With an error every result
    is nil or zero. *)
Theorem RunFullCouncil_all_or_nothing (w : World) (userQuery : string) :
  let '(stage1, stage2, stage3, metadata, err) := RunFullCouncil w userQuery in
  (err = None /\
   stage1 <> [] /\
   stage1 = (Stage1CollectResponses w userQuery).1 /\
   stage2 = (Stage2CollectRankings w userQuery stage1).1.1 /\
   Stage3SynthesizeFinal w userQuery stage1 stage2 = inl stage3 /\
   Stage3_Model stage3 = ChairmanModel w /\
   LabelToModel metadata = assign_labels stage1 /\
   AggregateRankings metadata
   = CalculateAggregateRankings stage2 (LabelToModel metadata)) \/
  ((exists e, err = Some e) /\
   stage1 = [] /\ stage2 = [] /\
   stage3 = Stage3Response_zero /\ metadata = Metadata_zero).
Proof.
  rewrite RunFullCouncil_unfold. cbv zeta.
  destruct (length _ =? 0)%nat eqn:Hlen; [right; split_and!; eauto|].
  destruct (Stage3SynthesizeFinal w userQuery _ _) as [stage3|e] eqn:Hstage3;
    [|right; split_and!; eauto].
  left. split_and!; try done.
  - intros Hnil. by rewrite Hnil in Hlen.
  - unfold Stage3SynthesizeFinal in Hstage3.
    by destruct (QueryModel w 3 0 _ _ _); simplify_eq.
Qed.

(** X14.  Graceful degradation, exactly: with distinct council models,
    [RunFullCouncil] succeeds if and only if the Stage-1 call of at least
    one council model succeeds and the chairman's call succeeds.  No
    failure in Stage 2 makes it fail. *)
Theorem RunFullCouncil_succeeds_iff (w : World) (userQuery : string) :
  NoDup (CouncilModels w) ->
  let stage1Results := (Stage1CollectResponses w userQuery).1 in
  let stage2Results := (Stage2CollectRankings w userQuery stage1Results).1.1 in
  (RunFullCouncil w userQuery).2 = None <->
  (exists i model response,
     CouncilModels w !! i = Some model /\
     QueryModel w 1 i model [ {| Role := "user"; Content := userQuery |} ]
       (120 * Second) = inl response) /\
  (exists response,
     QueryModel w 3 0 (ChairmanModel w)
       (chairman_messages userQuery stage1Results stage2Results) ModelQueryTimeout
     = inl response).
Proof.
  intros Hnodup stage1Results stage2Results.
  assert (Hstage1 : stage1Results <> [] <->
                    exists i model response,
                      CouncilModels w !! i = Some model /\
                      QueryModel w 1 i model [ {| Role := "user"; Content := userQuery |} ]
                        (120 * Second) = inl response).
  { split.
    - destruct stage1Results as [|[model text] rest] eqn:Hs1; [done|]. intros _.
      assert (Hin : {| Stage1_Model := model; Stage1_Response := text |}
                    ∈ (Stage1CollectResponses w userQuery).1).
      { fold stage1Results. rewrite Hs1. left. }
      apply elem_of_Stage1CollectResponses in Hin as (i & r & Hi & Hcall & _); [|done].
      by exists i, model, r.
    - intros (i & model & r & Hi & Hcall) Hnil.
      assert (Hin : {| Stage1_Model := model; Stage1_Response := Response_Content r |}
                    ∈ (Stage1CollectResponses w userQuery).1).
      { apply elem_of_Stage1CollectResponses; [done|]. by exists i, r. }
      fold stage1Results in Hin. rewrite Hnil in Hin. by apply elem_of_nil in Hin. }
  rewrite <- Hstage1. rewrite RunFullCouncil_unfold. cbv zeta.
  fold stage1Results. fold stage2Results.
  unfold Stage3SynthesizeFinal.
  destruct stage1Results as [|r rs] eqn:Hs1; cbn [length Nat.eqb].
  - split; [done|]. by intros [? _].
  - destruct (QueryModel w 3 0 _ _ _) as [response|e]; simpl.
    + split; [|done]. intros _. split; [done|]. by exists response.
    + split; [done|]. by intros [_ [? ?]].
Qed.

End MoreCouncilFacts.

Lemma Stage1CollectResponses_successful_models_witness :
  NoDup (CouncilModels example_one_failure) /\
  let stage1Results :=
    (Stage1CollectResponses (H := Reference.runtime) example_one_failure "What is Go?").1 in
  {| Stage1_Model := "model/success"; Stage1_Response := "Success" |} ∈ stage1Results /\
  stage1Results = [ {| Stage1_Model := "model/success"; Stage1_Response := "Success" |} ].
Proof.
  assert (Hnodup : NoDup (CouncilModels example_one_failure)).
  { apply NoDup_ListNoDup. repeat constructor; simpl; intuition congruence. }
  split; [done|]. cbv zeta.
  destruct (Stage1CollectResponses_successful_models (H := Reference.runtime)
              example_one_failure "What is Go?" Hnodup) as [_ Hiff].
  split; [|by vm_compute].
  apply Hiff. exists 0, {| Response_Content := "Success"; ReasoningDetails := None |}.
  done.
Defined.

Lemma Stage2CollectRankings_anonymous_witness :
  map Stage1_Response example_two_results
  = map Stage1_Response example_two_results_renamed /\
  map Stage1_Model example_two_results <> map Stage1_Model example_two_results_renamed /\
  (Stage2CollectRankings (H := Reference.runtime) example_all_succeed "What is Go?"
     example_two_results).1.1
  = (Stage2CollectRankings (H := Reference.runtime) example_all_succeed "What is Go?"
       example_two_results_renamed).1.1.
Proof.
  assert (Hmap : map Stage1_Response example_two_results
                 = map Stage1_Response example_two_results_renamed) by done.
  split_and!; [done|done|].
  apply (Stage2CollectRankings_anonymous (H := Reference.runtime)
           example_all_succeed "What is Go?" _ _ Hmap).
Defined.

Lemma rankingPrompt_shows_responses_witness :
  example_two_results !! 1
  = Some {| Stage1_Model := "model/b"; Stage1_Response := "Response from model B" |} /\
  Contains (rankingPrompt "What is Go?" (responsesText example_two_results))
           ("Response B:" +:+ nl +:+ "Response from model B" +:+ nl +:+ nl) = true.
Proof.
  split; [done|].
  exact (rankingPrompt_shows_responses "What is Go?" example_two_results 1 _ eq_refl).
Defined.

Lemma RunFullCouncil_succeeds_iff_witness :
  NoDup (CouncilModels example_one_failure) /\
  QueryModel example_one_failure 1 1 "model/fail"
    [ {| Role := "user"; Content := "What is Go?" |} ] (120 * Second)
  = inr (errorString "API returned status 500: Error") /\
  (RunFullCouncil (H := Reference.runtime) example_one_failure "What is Go?").2 = None.
Proof.
  assert (Hnodup : NoDup (CouncilModels example_one_failure)).
  { apply NoDup_ListNoDup. repeat constructor; simpl; intuition congruence. }
  split_and!; [done|done|].
  apply (RunFullCouncil_succeeds_iff (H := Reference.runtime)
           example_one_failure "What is Go?" Hnodup).
  split.
  - by exists 0, "model/success",
      {| Response_Content := "Success"; ReasoningDetails := None |}.
  - by exists {| Response_Content := "Success"; ReasoningDetails := None |}.
Defined.

(** ** The title generator *)

Section TitleFacts.

Lemma last_byte_snoc (s : string) (c : ascii) : last_byte (s +:+ String c "") = Some c.
Proof.
  induction s as [|a s IH]; [done|].
  rewrite append_String. cbn [last_byte]. rewrite IH.
  by destruct (s +:+ String c "") eqn:Hs; [destruct s|].
Qed.

Lemma last_byte_take (s : string) (c : ascii) :
  last_byte s = Some c -> s = take (String.length s - 1) s +:+ String c "".
Proof.
  induction s as [|a s IH]; [done|].
  destruct s as [|b s]; [by intros [= ->]|].
  intros Hlast. specialize (IH Hlast).
  replace (String.length (String a (String b s)) - 1)
    with (S (String.length (String b s) - 1)) by (simpl; lia).
  cbn [take]. rewrite append_String. by f_equal.
Qed.

Lemma length_take (n : nat) (s : string) :
  String.length (take n s) = Nat.min n (String.length s).
Proof.
  revert s. induction n as [|n IH]; intros [|c s]; simpl; [done..|]. by rewrite IH.
Qed.

(** The loop from the right stops at a byte outside the cutset, and what
    it took away is in the cutset. *)
Lemma trimRightASCII_spec (rounds : nat) (s cutset : string) :
  String.length s <= rounds ->
  let trimmed := trimRightASCII rounds s cutset in
  (forall c, last_byte trimmed = Some c -> asciiSet_contains cutset c = false) /\
  exists cut, all_bytes (asciiSet_contains cutset) cut = true /\ s = trimmed +:+ cut.
Proof.
  revert s. induction rounds as [|rounds IH]; intros s Hlen; cbv zeta.
  - destruct s; [|simpl in Hlen; lia]. split; [done|]. by exists "".
  - cbn [trimRightASCII]. destruct (last_byte s) as [c|] eqn:Hlast.
    + destruct (asciiSet_contains cutset c) eqn:Hc.
      * pose proof (last_byte_take s c Hlast) as Hs.
        destruct (IH (take (String.length s - 1) s)) as [Hend (cut & Hcut & Htake)].
        { rewrite length_take. destruct s; simpl in *; [done|lia]. }
        split; [done|]. exists (cut +:+ String c ""). split.
        -- apply all_bytes_append; [done|]. simpl. by rewrite Hc.
        -- rewrite <- append_assoc, <- Htake. done.
      * split; [intros c' Hc'; congruence|]. exists "". by rewrite append_empty_r.
    + split; [intros c' Hc'; congruence|]. exists "". by rewrite append_empty_r.
Qed.

Lemma trimLeftASCII_spec (s cutset : string) :
  let trimmed := trimLeftASCII s cutset in
  (forall c, first_byte trimmed = Some c -> asciiSet_contains cutset c = false) /\
  (forall c, last_byte trimmed = Some c -> last_byte s = Some c) /\
  exists cut, all_bytes (asciiSet_contains cutset) cut = true /\ s = cut +:+ trimmed.
Proof.
  cbv zeta. induction s as [|a s (Hfirst & Hlast & cut & Hcut & Hs)].
  - split_and!; [done..|]. by exists "".
  - cbn [trimLeftASCII]. destruct (asciiSet_contains cutset a) eqn:Ha.
    + split_and!; [done| |].
      * intros c Hc. specialize (Hlast c Hc). cbn [last_byte]. by destruct s.
      * exists (String a cut). split; [simpl; by rewrite Ha|].
        rewrite append_String. by f_equal.
    + split_and!; [by intros c [= <-]|done|]. by exists "".
Qed.

(** [Trim] takes bytes of the cutset away from both ends, and only them,
    until a byte outside the cutset stands at each end. *)
Lemma Trim_spec (s cutset : string) :
  cutset <> "" ->
  let trimmed := Trim s cutset in
  (forall c, first_byte trimmed = Some c -> asciiSet_contains cutset c = false) /\
  (forall c, last_byte trimmed = Some c -> asciiSet_contains cutset c = false) /\
  exists left right,
    all_bytes (asciiSet_contains cutset) left = true /\
    all_bytes (asciiSet_contains cutset) right = true /\
    s = left +:+ trimmed +:+ right.
Proof.
  intros Hcutset. cbv zeta. unfold Trim.
  destruct (String.eqb_spec s "") as [->|Hs]; [split_and!; [done..|]; by exists "", ""|].
  destruct (String.eqb_spec cutset "") as [->|_]; [done|]. cbn [orb].
  destruct (trimRightASCII_spec (String.length s) s cutset (le_n _))
    as [Hright (right & Hcut_right & Hs_right)].
  destruct (trimLeftASCII_spec (trimRightASCII (String.length s) s cutset) cutset)
    as (Hleft & Hlast & left & Hcut_left & Hs_left).
  split_and!; [done| |].
  - intros c Hc. apply Hright, Hlast, Hc.
  - exists left, right. split_and!; [done..|].
    rewrite <- append_assoc, <- Hs_left. exact Hs_right.
Qed.

Lemma first_byte_take_append (n : nat) (s rest : string) :
  first_byte (take (S n) s +:+ rest) = first_byte s \/ s = "".
Proof. destruct s; [by right|by left]. Qed.

End TitleFacts.

Section TitleProperties.
Variable TrimSpace : string -> string.

(** X15.  The title [GenerateConversationTitle] returns has at most 50
    bytes and neither begins nor ends with a double quote or an apostrophe.
    When the call of the title model fails it is empty, with the wrapped
    error.  Otherwise it is made from the answer without the white space
    around it: the quote characters at both ends are taken away, and what
    is left is returned whole when it has at most 50 bytes, cut to its
    first 47 bytes followed by three periods otherwise. *)
Theorem GenerateConversationTitle_title (w : World) (userQuery : string) :
  let '(title, err) := GenerateConversationTitle TrimSpace w userQuery in
  String.length title <= 50 /\
  (forall c, first_byte title = Some c -> asciiSet_contains quotes c = false) /\
  (forall c, last_byte title = Some c -> asciiSet_contains quotes c = false) /\
  match QueryModel w 4 0 "google/gemini-2.5-flash"
          [ {| Role := "user"; Content := titlePrompt userQuery |} ] TitleGenTimeout with
  | inr e => title = "" /\ err = Some (wrapError "title generation failed: " e)
  | inl response =>
      err = None /\
      exists left cleaned right,
        all_bytes (asciiSet_contains quotes) left = true /\
        all_bytes (asciiSet_contains quotes) right = true /\
        TrimSpace (Response_Content response) = left +:+ cleaned +:+ right /\
        (String.length cleaned <= 50 /\ title = cleaned \/
         50 < String.length cleaned /\ title = take 47 cleaned +:+ "...")
  end.
Proof.
  unfold GenerateConversationTitle.
  destruct (QueryModel w 4 0 _ _ _) as [response|e];
    [|split_and!; [simpl; lia|done..]].
  cbv zeta.
  destruct (Trim_spec (TrimSpace (Response_Content response)) quotes ltac:(done))
    as (Hfirst & Hlast & left & right & Hleft & Hright & Hcontent).
  set (cleaned := Trim (TrimSpace (Response_Content response)) quotes) in *.
  destruct (50 <? String.length cleaned)%nat eqn:Hlong.
  - apply Nat.ltb_lt in Hlong. split_and!.
    + rewrite length_append, length_take.
      change (String.length "...") with 3. lia.
    + intros c.
      destruct (first_byte_take_append 46 cleaned "...") as [->| ->]; [apply Hfirst|].
      simpl in Hlong. lia.
    + intros c. change "..." with (".." +:+ String "." "").
      rewrite <- append_assoc, last_byte_snoc. by intros [= <-].
    + done.
    + exists left, cleaned, right. split_and!; [done..|]. right. done.
  - apply Nat.ltb_ge in Hlong. split_and!; [done..|].
    exists left, cleaned, right. split_and!; [done..|]. left. done.
Qed.

End TitleProperties.

(** The answer of the test of the repository: the quotes around it are
    taken away ([TrimSpace] finds no white space around this answer, and
    leaves it as it is). *)
Example GenerateConversationTitle_quotes :
  GenerateConversationTitle (fun s => s) example_title_answers "Test"
  = ("Go Programming", None).
Proof. by vm_compute. Qed.

(** ** The bills scraper and its cache *)

Section ScraperFacts.

Lemma normalizeURL_https (rest : string) :
  HasPrefix ("https://" +:+ rest) "https://" = true /\
  "https://" +:+ rest <> "" /\
  normalizeURL ("https://" +:+ rest) = "https://" +:+ rest.
Proof.
  unfold normalizeURL. rewrite !append_String.
  change ("" +:+ rest) with rest. by cbn.
Qed.

Lemma normalizeURL_cases (href : string) :
  href = "" /\ normalizeURL href = "" \/
  href <> "" /\ normalizeURL href = href /\
    HasPrefix href "http://" || HasPrefix href "https://" = true \/
  href <> "" /\ exists rest, normalizeURL href = "https://" +:+ rest.
Proof.
  unfold normalizeURL.
  destruct (String.eqb_spec href "") as [->|Hne]; [by left|right].
  destruct (HasPrefix href "http://" || HasPrefix href "https://"); [by left|right].
  split; [done|].
  destruct (HasPrefix href "/");
    [by exists ("www.aph.gov.au" +:+ href)|by exists ("www.aph.gov.au/" +:+ href)].
Qed.

(** X16.  [normalizeURL] returns the empty string for the empty string
    only; every other result begins with [http://] or [https://]; and
    normalizing twice is normalizing once. *)
Theorem normalizeURL_absolute (href : string) :
  (normalizeURL href = "" <-> href = "") /\
  (href = "" \/
   HasPrefix (normalizeURL href) "http://" || HasPrefix (normalizeURL href) "https://"
   = true) /\
  normalizeURL (normalizeURL href) = normalizeURL href.
Proof.
  destruct (normalizeURL_cases href)
    as [[-> Hn]|[(Hne & Hn & Habs)|(Hne & rest & Hn)]]; rewrite !Hn.
  - by split_and!; [|left|].
  - split_and!; [done|by right|done].
  - destruct (normalizeURL_https rest) as (Hp & Hnonempty & Hfix).
    split_and!; [by split|right; rewrite Hp; apply orb_true_r|done].
Qed.

(** X17.  For a count of bills that is not negative,
    [CalculateTotalPages] is at least 1 and is the number of pages of 20
    that hold the bills: the bills fit on that many pages and, unless there
    is none, would not fit on one page less. *)
Theorem CalculateTotalPages_ceiling (billCount : Z) :
  (0 <= billCount)%Z ->
  let pages := CalculateTotalPages billCount in
  (1 <= pages /\ billCount <= 20 * pages /\
   (billCount = 0 \/ 20 * (pages - 1) < billCount))%Z.
Proof.
  intros Hpos. cbv zeta. unfold CalculateTotalPages.
  destruct (billCount =? 0)%Z eqn:Hzero; [apply Z.eqb_eq in Hzero; lia|].
  apply Z.eqb_neq in Hzero.
  rewrite Z.quot_div_nonneg, Z.rem_mod_nonneg by lia.
  pose proof (Z.div_mod billCount 20 ltac:(lia)) as Hdiv.
  pose proof (Z.mod_pos_bound billCount 20 ltac:(lia)) as Hmod.
  destruct (0 <? billCount mod 20)%Z eqn:Hrem;
    [apply Z.ltb_lt in Hrem|apply Z.ltb_ge in Hrem]; lia.
Qed.

End ScraperFacts.

Lemma CalculateTotalPages_ceiling_witness :
  (0 <= 41)%Z /\ CalculateTotalPages 41 = 3%Z /\
  (41 <= 20 * CalculateTotalPages 41)%Z /\
  (20 * (CalculateTotalPages 41 - 1) < 41)%Z.
Proof.
  destruct (CalculateTotalPages_ceiling 41 ltac:(lia)) as (_ & Hup & [Hz|Hlow]); [done|].
  split_and!; [lia|done|done..].
Defined.

Section CacheFacts.

Lemma ttl_updates (ttl0 : Z) (updates : list CacheUpdate) :
  ttl (foldl update (NewBillsCache ttl0) updates) = ttl0.
Proof.
  induction updates as [|u updates IH] using rev_ind; [done|].
  rewrite foldl_app. simpl. by destruct u.
Qed.

(** X18.  After any sequence of [Set] and [Clear] calls on a new cache,
    [Get] hits exactly when the last call was a [Set] of a list that is not
    empty and no more than the time to live has passed since that call; it
    then returns the stored list.  A miss returns nil, and [Get] hits
    exactly when [IsExpired] says no at the same instant. *)
Theorem BillsCache_Get_hit (ttl0 : Z) (updates : list CacheUpdate)
    (now : Time) (result : list Bill) :
  let c := foldl update (NewBillsCache ttl0) updates in
  (BillsCache_Get now c = (result, true) <->
   result <> [] /\
   exists earlier storedAt,
     updates = (earlier ++ [SetAt storedAt result])%list /\
     (Since now storedAt <= ttl0)%Z) /\
  (BillsCache_Get now c).2 = negb (BillsCache_IsExpired now c) /\
  ((BillsCache_Get now c).2 = false -> (BillsCache_Get now c).1 = []).
Proof.
  cbv zeta. split_and!.
  - pose proof (ttl_updates ttl0 updates) as Httl.
    destruct updates as [|u updates _] using rev_ind.
    + simpl. split; [done|]. intros (_ & earlier & storedAt & Heq & _).
      by destruct earlier.
    + rewrite foldl_app in *. cbn [foldl] in *.
      set (c := foldl update (NewBillsCache ttl0) updates) in *.
      destruct u as [storedAt newBills|]; unfold BillsCache_Get; simpl in *.
      * rewrite Httl. destruct newBills as [|b bs]; simpl.
        -- split; [done|]. intros (Hne & earlier & t & Heq & _).
           apply app_inj_tail in Heq as [_ [= _ <-]]. done.
        -- destruct (ttl0 <? Since now storedAt)%Z eqn:Hexp.
           ++ split; [done|]. intros (_ & earlier & t & Heq & Hle).
              apply app_inj_tail in Heq as [_ [= <- _]].
              apply Z.ltb_lt in Hexp. lia.
           ++ apply Z.ltb_ge in Hexp. split.
              ** intros [= <-]. split; [done|]. by exists updates, storedAt.
              ** intros (_ & earlier & t & Heq & _).
                 by apply app_inj_tail in Heq as [_ [= _ <-]].
      * split; [done|]. intros (_ & earlier & t & Heq & _).
        by apply app_inj_tail in Heq as [_ ?].
  - unfold BillsCache_Get, BillsCache_IsExpired.
    destruct (length _ =? 0)%nat; [done|]. by destruct (_ <? _)%Z.
  - unfold BillsCache_Get.
    destruct (length _ =? 0)%nat; [done|]. by destruct (_ <? _)%Z.
Qed.

End CacheFacts.

(** A cache with a time to live of five minutes: a list stored at second
    10 is returned at second 310 and no more at second 311; an empty list
    is never returned. *)
Example BillsCache_five_minutes :
  let at_second := fun s : Z => {| wall := 0; monotonic := Some (s * Second)%Z |} in
  let c := BillsCache_Set (at_second 10%Z) [example_bill]
             (NewBillsCache (300 * Second)%Z) in
  BillsCache_Get (at_second 310%Z) c = ([example_bill], true) /\
  BillsCache_Get (at_second 311%Z) c = ([], false) /\
  BillsCache_Get (at_second 10%Z)
    (BillsCache_Set (at_second 10%Z) [] (NewBillsCache (300 * Second)%Z)) = ([], false) /\
  BillsCache_GetSize (BillsCache_Clear c) = 0%Z.
Proof. by vm_compute. Qed.
